(** * IS20 token ledger: balances, allowances, history and the cycle auction

    A shallow embedding of [token/api/src] (crate [token_api]):
    - [state.rs]                         : [Balances], [CanisterState]
    - [ledger.rs]                        : [Ledger]
    - [types.rs], [types/tx_record.rs]   : [TxRecord], [TxError], [StatsData]
    - [canister/erc20_transactions.rs]   : transfer, transfer_from, approve,
                                           mint, burn, transfer_balance,
                                           charge_fee
    - [canister/is20_auction.rs]         : disburse_rewards
    - [canister.rs]                      : get_transactions, get_holders

    Conventions.
    - [Tokens128] is a [Z] in [0, 2^128 - 1]; its checked operations return
      [option Z] ([None] is the [None] of the Rust [Option]).
    - A Rust panic ([expect], [unwrap], out-of-range slice) is a trap: the
      update call is rolled back. Every operation returns
      [option (state * result)], [None] being the trap.
    - [Principal] is its textual form ([string]); the management canister,
      used as [auction_principal], is ["aaaaa-aa"].
    - A [HashMap] is a stdpp [gmap]; iteration over it follows
      [map_to_list], an arbitrary but fixed order, as [HashMap] iteration.
    - [u64] counters ([TxId], [vec_offset]) are [Z]; they never come near
      [2^64] in any run, so their wrap-around is not written out. [usize]
      is kept symbolic where its width matters (a canister is compiled to
      32-bit wasm). *)

From Stdlib Require Import ZArith Lia.
From stdpp Require Import base list gmap strings sorting.

Open Scope Z_scope.

(* ------------------------------------------------------------------ *)
(** ** Tokens128 (ic_helpers::tokens::Tokens128) *)

Definition MAX128 : Z := 2 ^ 128 - 1.

(** [a + b], [None] on overflow. *)
Definition tokens_add (a b : Z) : option Z :=
  if a + b <=? MAX128 then Some (a + b) else None.

(** [a - b], [None] on underflow. *)
Definition tokens_sub (a b : Z) : option Z :=
  if b <=? a then Some (a - b) else None.

(** [Tokens256::to_tokens128]. *)
Definition to_tokens128 (a : Z) : option Z :=
  if a <=? MAX128 then Some a else None.

Definition is_tokens (a : Z) : Prop := 0 <= a <= MAX128.

(* ------------------------------------------------------------------ *)
(** ** Principals and errors *)

Definition Principal := string.

(** [auction_principal()] = [Principal::management_canister()]. *)
Definition auction_principal : Principal := "aaaaa-aa".

Inductive TxError :=
| InsufficientBalance
| InsufficientAllowance
| NoAllowance
| Unauthorized
| AmountTooSmall
| FeeExceededLimit
| SelfTransfer
| AmountOverflow.

(** [Result<A, TxError>]. *)
Inductive Result (A : Type) :=
| Ok (a : A)
| Err (e : TxError).
Arguments Ok {A} a.
Arguments Err {A} e.

(* ------------------------------------------------------------------ *)
(** ** Balances (state.rs) *)

(** [pub struct Balances(pub HashMap<Principal, Tokens128>)]. *)
Abbreviation Balances := (gmap Principal Z).

Definition balance_of (b : Balances) (who : Principal) : Z :=
  default 0 (b !! who).

(** Sum of all balances. *)
Definition sum_balances (b : Balances) : Z :=
  map_fold (fun _ v acc => v + acc) 0 b.

(** Every balance is a [Tokens128] and their sum fits in one: what the
    invariant [sum = total_supply] gives for a [Tokens128] total supply. *)
Definition balances_wf (b : Balances) : Prop :=
  map_Forall (fun _ v => 0 <= v) b /\ sum_balances b <= MAX128.

(** [transfer_balance] (erc20_transactions.rs). The returned balances are
    the state after the call: on [Err] they are the input ones, since the
    [?] returns before any write. *)
Definition transfer_balance (b : Balances) (from to : Principal) (amount : Z)
  : option (Balances * Result unit) :=
  if amount =? 0 then Some (b, Ok tt) else
  match b !! from with
  | None => Some (b, Err InsufficientBalance)
  | Some fb =>
    match tokens_sub fb amount with
    | None => Some (b, Err InsufficientBalance)
    | Some nfb =>
      let b1 := <[from := nfb]> b in
      (* balances.0.entry(to).or_default() *)
      let tb := default 0 (b1 !! to) in
      match tokens_add tb amount with
      | None => None (* expect: never overflows *)
      | Some ntb =>
        let b2 := <[to := ntb]> b1 in
        match b2 !! from with
        | None => None (* expect: checked above *)
        | Some v => if v =? 0 then Some (delete from b2, Ok tt)
                    else Some (b2, Ok tt)
        end
      end
    end
  end.

(** [INT_CONVERSION_K]. *)
Definition INT_CONVERSION_K : Z := 1000000000000.

(** [charge_fee]. The [f64] [fee_ratio] enters only through
    [(fee_ratio * INT_CONVERSION_K as f64) as u128]; that [u128] is the
    argument [ratio_k] (a saturating cast: always in [0, 2^128 - 1]). The
    [debug_assert] is not compiled in a release build. *)
Definition charge_fee (b : Balances) (user fee_to : Principal) (fee ratio_k : Z)
  : option (Balances * Result unit) :=
  if fee =? 0 then Some (b, Ok tt) else
  (* fee * Tokens128 is a Tokens256; the division by a non-zero constant *)
  let auction_fee_256 := fee * ratio_k / INT_CONVERSION_K in
  match to_tokens128 auction_fee_256 with
  | None => None (* expect: fee is always greater *)
  | Some auction_fee_amount =>
    match tokens_sub fee auction_fee_amount with
    | None => None (* expect: fee is always greater *)
    | Some owner_fee_amount =>
      match transfer_balance b user fee_to owner_fee_amount with
      | None => None
      | Some (b1, Err e) => Some (b1, Err e)
      | Some (b1, Ok _) => transfer_balance b1 user auction_principal auction_fee_amount
      end
    end
  end.

(** [auction_fee_amount] as computed by [charge_fee] for [0 <= ratio_k]. *)
Definition auction_part (fee ratio_k : Z) : Z := fee * ratio_k / INT_CONVERSION_K.

(* ------------------------------------------------------------------ *)
(** ** Transaction records (types.rs, types/tx_record.rs) *)

Definition TxId := Z.

Inductive TransactionStatus := Succeeded | Failed.

Inductive Operation := Approve | Mint | Transfer | TransferFrom | Burn | Auction.

Record TxRecord := mkTxRecord {
  caller : option Principal;
  index : TxId;
  from : Principal;
  to : Principal;
  amount : Z;
  fee : Z;
  timestamp : Z;
  status : TransactionStatus;
  operation : Operation
}.

Section Records.
(** [ic::time()] at the moment the record is built. *)
Variable now : Z.

Definition TxRecord_transfer (index : TxId) (from to : Principal) (amount fee : Z) :=
  mkTxRecord (Some from) index from to amount fee now Succeeded Transfer.

Definition TxRecord_transfer_from (index : TxId) (caller from to : Principal) (amount fee : Z) :=
  mkTxRecord (Some caller) index from to amount fee now Succeeded TransferFrom.

Definition TxRecord_approve (index : TxId) (from to : Principal) (amount fee : Z) :=
  mkTxRecord (Some from) index from to amount fee now Succeeded Approve.

Definition TxRecord_mint (index : TxId) (from to : Principal) (amount : Z) :=
  mkTxRecord (Some from) index from to amount 0 now Succeeded Mint.

Definition TxRecord_burn (index : TxId) (caller from : Principal) (amount : Z) :=
  mkTxRecord (Some caller) index from from amount 0 now Succeeded Burn.

Definition TxRecord_auction (index : TxId) (to : Principal) (amount : Z) :=
  mkTxRecord (Some to) index to to amount 0 now Succeeded Auction.
End Records.

(* ------------------------------------------------------------------ *)
(** ** Ledger (ledger.rs) *)

Definition MAX_HISTORY_LENGTH : Z := 1000000.
Definition HISTORY_REMOVAL_BATCH_SIZE : Z := 10000.

(** [PendingNotifications = HashMap<u64, Option<Principal>>]. *)
Abbreviation PendingNotifications := (gmap Z (option Principal)).

Record Ledger := mkLedger {
  history : list TxRecord;
  vec_offset : Z;
  notifications : PendingNotifications
}.

Definition ledger_default : Ledger := mkLedger [] 0 ∅.

Definition len (l : Ledger) : Z := vec_offset l + Z.of_nat (length (history l)).

Definition next_id (l : Ledger) : TxId := vec_offset l + Z.of_nat (length (history l)).

(** [get_index]: [usize_max] is [usize::MAX as TxId] of the target. *)
Definition get_index (usize_max : Z) (l : Ledger) (id : TxId) : option Z :=
  if (id <? vec_offset l) || (usize_max <? id) then None
  else Some (id - vec_offset l).

(** [get]: [self.history.get(self.get_index(id)?).cloned()]. *)
Definition get (usize_max : Z) (l : Ledger) (id : TxId) : option TxRecord :=
  i ← get_index usize_max l id; history l !! Z.to_nat i.

(** [push]. *)
Definition push (l : Ledger) (record : TxRecord) : Ledger :=
  let h := history l ++ [record] in
  let n := <[index record := None]> (notifications l) in
  if MAX_HISTORY_LENGTH + HISTORY_REMOVAL_BATCH_SIZE <? Z.of_nat (length h) then
    let batch := Z.to_nat HISTORY_REMOVAL_BATCH_SIZE in
    mkLedger (drop batch h)
             (vec_offset l + HISTORY_REMOVAL_BATCH_SIZE)
             (foldl (fun acc r => delete (index r) acc) n (take batch h))
  else mkLedger h (vec_offset l) n.

Section LedgerOps.
Variable now : Z.

Definition ledger_transfer (l : Ledger) (from to : Principal) (amount fee : Z) : TxId * Ledger :=
  let id := next_id l in (id, push l (TxRecord_transfer now id from to amount fee)).

Definition ledger_transfer_from (l : Ledger) (caller from to : Principal) (amount fee : Z)
  : TxId * Ledger :=
  let id := next_id l in (id, push l (TxRecord_transfer_from now id caller from to amount fee)).

Definition ledger_approve (l : Ledger) (from to : Principal) (amount fee : Z) : TxId * Ledger :=
  let id := next_id l in (id, push l (TxRecord_approve now id from to amount fee)).

(** [Ledger::mint] numbers the record with [self.len()]. *)
Definition ledger_mint (l : Ledger) (from to : Principal) (amount : Z) : TxId * Ledger :=
  let id := len l in (id, push l (TxRecord_mint now id from to amount)).

Definition ledger_burn (l : Ledger) (caller from : Principal) (amount : Z) : TxId * Ledger :=
  let id := next_id l in (id, push l (TxRecord_burn now id caller from amount)).

Definition record_auction (l : Ledger) (to : Principal) (amount : Z) : Ledger :=
  let id := next_id l in push l (TxRecord_auction now id to amount).
End LedgerOps.

(** [PaginatedResult]. *)
Record PaginatedResult := mkPaginatedResult {
  result : list TxRecord;
  next : option TxId
}.

(** [Vec::remove(i)]: panics when [i >= len]. *)
Definition vec_remove {A} (xs : list A) (i : nat) : option (A * list A) :=
  x ← xs !! i; Some (x, take i xs ++ drop (S i) xs).

Definition who_filter (who : option Principal) (tx : TxRecord) : bool :=
  match who with
  | None => true
  | Some c => bool_decide (c = from tx) || bool_decide (c = to tx)
              || bool_decide (Some c = caller tx)
  end.

Definition id_filter (transaction_id : option TxId) (tx : TxRecord) : bool :=
  match transaction_id with
  | None => true
  | Some id => index tx <=? id
  end.

(** [Ledger::get_transactions]; [None] is the (unreachable) panic of
    [transactions.remove(count)]. *)
Definition ledger_get_transactions (l : Ledger) (who : option Principal) (count : nat)
  (transaction_id : option TxId) : option PaginatedResult :=
  let transactions :=
    take (count + 1) (filter (fun tx => id_filter transaction_id tx = true)
                        (filter (fun tx => who_filter who tx = true) (rev (history l)))) in
  if Nat.eqb (length transactions) (count + 1) then
    '(x, rest) ← vec_remove transactions count;
    Some (mkPaginatedResult rest (Some (index x)))
  else Some (mkPaginatedResult transactions None).

(** [MAX_TRANSACTION_QUERY_LEN] (canister.rs). *)
Definition MAX_TRANSACTION_QUERY_LEN : nat := 1000.

(** [TokenCanisterAPI::get_transactions]. *)
Definition get_transactions (l : Ledger) (who : option Principal) (count : nat)
  (transaction_id : option TxId) : option PaginatedResult :=
  ledger_get_transactions l who (Nat.min count MAX_TRANSACTION_QUERY_LEN) transaction_id.

(* ------------------------------------------------------------------ *)
(** ** Canister state (types.rs, state.rs) *)

Module StatsData.
Record t := mk {
  logo : string;
  name : string;
  symbol : string;
  decimals : Z;
  total_supply : Z;
  owner : Principal;
  fee : Z;
  fee_to : Principal;
  deploy_time : Z;
  min_cycles : Z;
  is_test_token : bool
}.

(** [StatsData::fee_info]. *)
Definition fee_info (s : t) : Z * Principal := (fee s, fee_to s).

Definition set_total_supply (s : t) (v : Z) : t :=
  mk (logo s) (name s) (symbol s) (decimals s) v (owner s) (fee s) (fee_to s)
     (deploy_time s) (min_cycles s) (is_test_token s).

Definition set_fee (s : t) (v : Z) : t :=
  mk (logo s) (name s) (symbol s) (decimals s) (total_supply s) (owner s) v (fee_to s)
     (deploy_time s) (min_cycles s) (is_test_token s).

Definition set_fee_to (s : t) (v : Principal) : t :=
  mk (logo s) (name s) (symbol s) (decimals s) (total_supply s) (owner s) (fee s) v
     (deploy_time s) (min_cycles s) (is_test_token s).

Definition set_owner (s : t) (v : Principal) : t :=
  mk (logo s) (name s) (symbol s) (decimals s) (total_supply s) v (fee s) (fee_to s)
     (deploy_time s) (min_cycles s) (is_test_token s).
End StatsData.

(** [DEFAULT_MIN_CYCLES]. *)
Definition DEFAULT_MIN_CYCLES : Z := 10000000000000.

Module Metadata.
Record t := mk {
  logo : string;
  name : string;
  symbol : string;
  decimals : Z;
  totalSupply : Z;
  owner : Principal;
  fee : Z;
  feeTo : Principal;
  isTestToken : option bool
}.
End Metadata.

(** [Allowances = HashMap<Principal, HashMap<Principal, Tokens128>>]. *)
Abbreviation Allowances := (gmap Principal (gmap Principal Z)).

Record CanisterState := mkCanisterState {
  balances : Balances;
  stats : StatsData.t;
  allowances : Allowances;
  ledger : Ledger
}.

(** [CanisterState::allowance]. *)
Definition allowance (st : CanisterState) (owner spender : Principal) : Z :=
  match allowances st !! owner with
  | Some inner => match inner !! spender with Some v => v | None => 0 end
  | None => 0
  end.

Section Engine.
(** [ic::time()] during the call. *)
Variable now : Z.

(** [From<Metadata> for StatsData]. *)
Definition stats_of_metadata (md : Metadata.t) : StatsData.t :=
  StatsData.mk (Metadata.logo md) (Metadata.name md) (Metadata.symbol md)
    (Metadata.decimals md) (Metadata.totalSupply md) (Metadata.owner md)
    (Metadata.fee md) (Metadata.feeTo md) now DEFAULT_MIN_CYCLES
    (default false (Metadata.isTestToken md)).

(** [TokenCanister::init] on a default state. *)
Definition init (md : Metadata.t) : CanisterState :=
  let b := <[Metadata.owner md := Metadata.totalSupply md]> (∅ : Balances) in
  let '(_, l) := ledger_mint now ledger_default (Metadata.owner md) (Metadata.owner md)
                   (Metadata.totalSupply md) in
  mkCanisterState b (stats_of_metadata md) ∅ l.

Definition fee_limit_exceeded (fee : Z) (fee_limit : option Z) : bool :=
  match fee_limit with Some fl => fl <? fee | None => false end.

(** [transfer] (erc20_transactions.rs): [caller] and [to] are the two
    principals of the [CheckedPrincipal<WithRecipient>]. *)
Definition transfer (st : CanisterState) (caller to : Principal) (amount : Z)
  (fee_limit : option Z) (ratio_k : Z) : option (CanisterState * Result TxId) :=
  let '(fee, fee_to) := StatsData.fee_info (stats st) in
  if fee_limit_exceeded fee fee_limit then Some (st, Err FeeExceededLimit) else
  match tokens_add amount fee with
  | None => Some (st, Err AmountOverflow)
  | Some need =>
    if balance_of (balances st) caller <? need then Some (st, Err InsufficientBalance) else
    match charge_fee (balances st) caller fee_to fee ratio_k with
    | Some (b1, Ok _) =>
      match transfer_balance b1 caller to amount with
      | Some (b2, Ok _) =>
        let '(id, l) := ledger_transfer now (ledger st) caller to amount fee in
        Some (mkCanisterState b2 (stats st) (allowances st) l, Ok id)
      | _ => None (* expect: never fails due to checks above *)
      end
    | _ => None (* expect: never fails due to checks above *)
    end
  end.

(** [transfer_from]: [caller], [from], [to] are the principals of the
    [CheckedPrincipal<SenderRecipient>]. *)
Definition transfer_from (st : CanisterState) (caller from to : Principal) (amount : Z)
  (ratio_k : Z) : option (CanisterState * Result TxId) :=
  let from_allowance := allowance st from caller in
  let '(fee, fee_to) := StatsData.fee_info (stats st) in
  match tokens_add amount fee with
  | None => Some (st, Err AmountOverflow)
  | Some value_with_fee =>
    if from_allowance <? value_with_fee then Some (st, Err InsufficientAllowance) else
    if balance_of (balances st) from <? value_with_fee then Some (st, Err InsufficientBalance)
    else
    match charge_fee (balances st) from fee_to fee ratio_k with
    | Some (b1, Ok _) =>
      match transfer_balance b1 from to amount with
      | Some (b2, Ok _) =>
        match allowances st !! from with
        | None => None (* expect: allowance existing is checked above *)
        | Some inner =>
          match inner !! caller with
          | None => None (* expect: allowance existing is checked above *)
          | Some a =>
            match tokens_sub a value_with_fee with
            | None => None (* expect: allowance sufficiency checked above *)
            | Some a' =>
              let al :=
                if a' =? 0 then
                  let inner' := delete caller inner in
                  if decide (inner' = ∅) then delete from (allowances st)
                  else <[from := inner']> (allowances st)
                else <[from := <[caller := a']> inner]> (allowances st) in
              let '(id, l) := ledger_transfer_from now (ledger st) caller from to amount fee in
              Some (mkCanisterState b2 (stats st) al l, Ok id)
            end
          end
        end
      | _ => None
      end
    | _ => None
    end
  end.

(** [approve]: [caller] and [spender] from the [CheckedPrincipal<WithRecipient>].
    Note that the fee is charged before [amount + fee] is checked. *)
Definition approve (st : CanisterState) (caller spender : Principal) (amount : Z)
  (ratio_k : Z) : option (CanisterState * Result TxId) :=
  let '(fee, fee_to) := StatsData.fee_info (stats st) in
  if balance_of (balances st) caller <? fee then Some (st, Err InsufficientBalance) else
  match charge_fee (balances st) caller fee_to fee ratio_k with
  | Some (b1, Ok _) =>
    match tokens_add amount fee with
    | None => Some (mkCanisterState b1 (stats st) (allowances st) (ledger st), Err AmountOverflow)
    | Some amount_with_fee =>
      let al :=
        if amount_with_fee =? 0 then
          match allowances st !! caller with
          | Some inner =>
            let inner' := delete spender inner in
            if decide (inner' = ∅) then delete caller (allowances st)
            else <[caller := inner']> (allowances st)
          | None => allowances st
          end
        else <[caller := <[spender := amount_with_fee]> (default ∅ (allowances st !! caller))]>
               (allowances st) in
      let '(id, l) := ledger_approve now (ledger st) caller spender amount fee in
      Some (mkCanisterState b1 (stats st) al l, Ok id)
    end
  | _ => None (* expect: never fails due to checks above *)
  end.

(** [mint]. *)
Definition mint (st : CanisterState) (caller to : Principal) (amount : Z)
  : option (CanisterState * Result TxId) :=
  match tokens_add (StatsData.total_supply (stats st)) amount with
  | None => Some (st, Err AmountOverflow)
  | Some ts =>
    (* state.balances.0.entry(to).or_default() *)
    let balance := default 0 (balances st !! to) in
    match tokens_add balance amount with
    | None => None (* expect: balance cannot be larger than total_supply *)
    | Some new_balance =>
      let '(id, l) := ledger_mint now (ledger st) caller to amount in
      Some (mkCanisterState (<[to := new_balance]> (balances st))
              (StatsData.set_total_supply (stats st) ts) (allowances st) l, Ok id)
    end
  end.

(** [burn]. *)
Definition burn (st : CanisterState) (caller from : Principal) (amount : Z)
  : option (CanisterState * Result TxId) :=
  let finish (b : Balances) :=
    match tokens_sub (StatsData.total_supply (stats st)) amount with
    | None => None (* expect: total supply cannot be less then user balance *)
    | Some ts =>
      let '(id, l) := ledger_burn now (ledger st) caller from amount in
      Some (mkCanisterState b (StatsData.set_total_supply (stats st) ts) (allowances st) l, Ok id)
    end in
  match balances st !! from with
  | Some balance =>
    match tokens_sub balance amount with
    | None => Some (st, Err InsufficientBalance)
    | Some nb => finish (if nb =? 0 then delete from (balances st) else <[from := nb]> (balances st))
    end
  | None => if negb (amount =? 0) then Some (st, Err InsufficientBalance) else finish (balances st)
  end.
End Engine.

(* ------------------------------------------------------------------ *)
(** ** Cycle auction settlement (is20_auction.rs) *)

(** The part of [ic_auction::BiddingState] read by [disburse_rewards]:
    [bids: HashMap<Principal, Cycles>], [cycles_since_auction: u64] and the
    [f64] [fee_ratio] (kept as its scaled [u128] image, as in [charge_fee]). *)
Record BiddingState := mkBiddingState {
  bids : gmap Principal Z;
  cycles_since_auction : Z;
  fee_ratio : Z
}.

Record AuctionInfo := mkAuctionInfo {
  auction_id : nat;
  auction_time : Z;
  tokens_distributed : Z;
  cycles_collected : Z;
  info_fee_ratio : Z;
  first_transaction_id : TxId;
  last_transaction_id : TxId
}.

(** [accumulated_fees]. *)
Definition accumulated_fees (b : Balances) : Z :=
  default 0 (b !! auction_principal).

(** The share of a bidder with [cycles] out of [total_cycles]. *)
Definition share (total_amount total_cycles cycles : Z) : Z :=
  total_amount * cycles / total_cycles.

Section Auction.
Variable now : Z.

(** The [for (bidder, cycles) in &bidding_state.bids] loop. *)
Fixpoint disburse_loop (total_amount total_cycles : Z) (bs : list (Principal * Z))
  (b : Balances) (l : Ledger) (transferred_amount : Z) : option (Balances * Ledger * Z) :=
  match bs with
  | [] => Some (b, l, transferred_amount)
  | (bidder, cycles) :: rest =>
    (* (total_amount * cycles / total_cycles): Tokens256, None on division by 0 *)
    if total_cycles =? 0 then None else
    match to_tokens128 (share total_amount total_cycles cycles) with
    | None => None
    | Some amount =>
      match transfer_balance b auction_principal bidder amount with
      | Some (b', Ok _) =>
        let l' := record_auction now l bidder amount in
        match tokens_add transferred_amount amount with
        | None => None
        | Some t => disburse_loop total_amount total_cycles rest b' l' t
        end
      | _ => None (* expect: auction principal always have enough balance *)
      end
    end
  end.

(** [disburse_rewards]; [history_len] is [history.len()] of the auction
    state. [ledger.len() - 1] is a [u64] subtraction (wrapping in a
    release build). *)
Definition disburse_rewards (st : CanisterState) (bidding : BiddingState) (history_len : nat)
  : option (CanisterState * AuctionInfo) :=
  let total_amount := accumulated_fees (balances st) in
  let total_cycles := cycles_since_auction bidding in
  let first_transaction_id := len (ledger st) in
  '(b, l, transferred_amount) ←
    disburse_loop total_amount total_cycles (map_to_list (bids bidding))
      (balances st) (ledger st) 0;
  let last_transaction_id := (len l - 1) mod 2 ^ 64 in
  Some (mkCanisterState b (stats st) (allowances st) l,
        mkAuctionInfo history_len now transferred_amount total_cycles (fee_ratio bidding)
          first_transaction_id last_transaction_id).
End Auction.

(* ------------------------------------------------------------------ *)
(** ** Holders query (Balances::get_holders) *)

(** One step of [sort_by(|a, b| b.1.cmp(&a.1))], a stable sort by
    descending balance: [x] goes after every entry with a balance [>=]. *)
Fixpoint insert_desc (x : Principal * Z) (xs : list (Principal * Z)) : list (Principal * Z) :=
  match xs with
  | [] => [x]
  | y :: r => if y.2 <? x.2 then x :: y :: r else y :: insert_desc x r
  end.

Definition sort_desc (xs : list (Principal * Z)) : list (Principal * Z) :=
  foldl (fun acc x => insert_desc x acc) [] xs.

(** [&v[start..end]]: panics unless [start <= end <= v.len()]. *)
Definition slice {A} (v : list A) (start end_ : Z) : option (list A) :=
  if (start <=? end_) && (end_ <=? Z.of_nat (length v)) then
    Some (take (Z.to_nat (end_ - start)) (drop (Z.to_nat start) v))
  else None.

(** [get_holders]; [usize_bits] is the width of [usize], in which
    [start + limit] is computed (wrapping in a release build). *)
Definition get_holders (usize_bits : Z) (b : Balances) (start limit : Z)
  : option (list (Principal * Z)) :=
  let balance := sort_desc (map_to_list b) in
  let end_ := Z.min ((start + limit) mod 2 ^ usize_bits) (Z.of_nat (length balance)) in
  slice balance start end_.

(* ------------------------------------------------------------------ *)
(** ** The state machine: init and the mutating operations *)

(** [update_stats] for the fee settings and the owner. *)
Definition update_stats (st : CanisterState) (s : StatsData.t) : CanisterState :=
  mkCanisterState (balances st) s (allowances st) (ledger st).

(** One update call of the token canister, on its [Tokens128] arguments,
    with any caller and any scaled fee ratio. The [CheckedPrincipal]
    guards only restrict which calls happen (and their module is not part
    of the sources), so the relation lets every call through: what holds
    for it holds a fortiori for the guarded canister. An [Err] result
    keeps the state the call leaves (it is not a trap). *)
Inductive step : CanisterState -> CanisterState -> Prop :=
| step_transfer now st caller to amount fee_limit k st' r :
    is_tokens amount ->
    transfer now st caller to amount fee_limit k = Some (st', r) -> step st st'
| step_transfer_from now st caller from to amount k st' r :
    is_tokens amount ->
    transfer_from now st caller from to amount k = Some (st', r) -> step st st'
| step_approve now st caller spender amount k st' r :
    is_tokens amount ->
    approve now st caller spender amount k = Some (st', r) -> step st st'
| step_mint now st caller to amount st' r :
    is_tokens amount ->
    mint now st caller to amount = Some (st', r) -> step st st'
| step_burn now st caller from amount st' r :
    is_tokens amount ->
    burn now st caller from amount = Some (st', r) -> step st st'
| step_disburse_rewards now st bidding n st' info :
    disburse_rewards now st bidding n = Some (st', info) -> step st st'
| step_set_fee st v :
    is_tokens v -> step st (update_stats st (StatsData.set_fee (stats st) v))
| step_set_fee_to st p :
    step st (update_stats st (StatsData.set_fee_to (stats st) p))
| step_set_owner st p :
    step st (update_stats st (StatsData.set_owner (stats st) p)).

(** States reachable from [init]. *)
Inductive reachable : CanisterState -> Prop :=
| reachable_init now md :
    is_tokens (Metadata.totalSupply md) -> reachable (init now md)
| reachable_step st st' : reachable st -> step st st' -> reachable st'.

(** Invariant B3. *)
Definition supply_invariant (st : CanisterState) : Prop :=
  sum_balances (balances st) = StatsData.total_supply (stats st).

(* ------------------------------------------------------------------ *)
(** ** Balance deltas *)

(** [a] if [p = x], else [0]. *)
Definition ind (p x : Principal) (a : Z) : Z := if decide (p = x) then a else 0.

(* ------------------------------------------------------------------ *)
(** ** Concrete deployments used as inputs below *)

(** Alice owns the 1000 tokens of the supply; no fee. *)
Definition md_alice : Metadata.t :=
  Metadata.mk "logo" "Token" "TKN" 8 1000 "alice" 0 "alice" None.

(** Fee 10 paid to John. *)
Definition md_fee_john : Metadata.t :=
  Metadata.mk "logo" "Token" "TKN" 8 1000 "alice" 10 "john" None.

(** Fee 10 paid to the owner Alice herself (the default set-up of the
    repository's tests: [feeTo: alice()]). *)
Definition md_fee_alice : Metadata.t :=
  Metadata.mk "logo" "Token" "TKN" 8 1000 "alice" 10 "alice" None.

(** After Alice approves Bob for 500 in [md_fee_john] (allowance 510). *)
Definition st_approved : CanisterState :=
  match approve 0 (init 0 md_fee_john) "alice" "bob" 500 0 with
  | Some (st, _) => st
  | None => init 0 md_fee_john
  end.

(** Invariants B1/A1 (zero-elision) of the spec, as a predicate on states:
    no zero balance, no zero allowance, no empty inner allowance map. *)
Definition zero_elided (st : CanisterState) : Prop :=
  map_Forall (fun _ v => v <> 0) (balances st) /\
  map_Forall (fun _ inner => inner <> ∅ /\ map_Forall (fun _ v => v <> 0) inner)
    (allowances st).

(** Alice's deployment after the owner mints 0 tokens to Bob. *)
Definition st_minted : CanisterState :=
  match mint 0 (init 0 md_alice) "alice" "bob" 0 with
  | Some (st, _) => st
  | None => init 0 md_alice
  end.

(** Invariant L1 of a ledger: the record at physical position [i] has
    index [vec_offset + i]. *)
Definition ledger_wf (l : Ledger) : Prop :=
  0 <= vec_offset l /\
  index <$> history l = seqZ (vec_offset l) (Z.of_nat (length (history l))).

(** Ledgers built from the default one by [push]es of records numbered
    [next_id] (as [Ledger::transfer], ..., [Ledger::mint] and
    [Ledger::record_auction] do). *)
Inductive ledger_reachable : Ledger -> Prop :=
| ledger_reachable_default : ledger_reachable ledger_default
| ledger_reachable_push l r :
    ledger_reachable l -> index r = next_id l -> ledger_reachable (push l r).

(** [usize::MAX] on the canister target (wasm32). *)
Definition USIZE_MAX_WASM32 : Z := 2 ^ 32 - 1.

(** The ledger after [n] zero mints from Alice to herself. *)
Fixpoint ledger_pushes (n : nat) : Ledger :=
  match n with
  | O => ledger_default
  | S n => snd (ledger_mint 0 (ledger_pushes n) "alice" "alice" 0)
  end.

(** The history seen by [Ledger::get_transactions]: newest first, then
    both filters. *)
Definition filtered_history (l : Ledger) (who : option Principal)
  (transaction_id : option TxId) : list TxRecord :=
  filter (fun tx => id_filter transaction_id tx = true)
    (filter (fun tx => who_filter who tx = true) (rev (history l))).

(** Sums over the bid list [(bidder, cycles)] of an auction. *)
Definition total_bid_cycles (bs : list (Principal * Z)) : Z :=
  foldr (fun pc acc => pc.2 + acc) 0 bs.

Definition total_shares (total_amount total_cycles : Z) (bs : list (Principal * Z)) : Z :=
  foldr (fun pc acc => share total_amount total_cycles pc.2 + acc) 0 bs.

(** What the bid list pays to [x]. *)
Definition bidder_share (total_amount total_cycles : Z) (bs : list (Principal * Z))
  (x : Principal) : Z :=
  foldr (fun pc acc =>
           (if decide (pc.1 = x) then share total_amount total_cycles pc.2 else 0) + acc)
        0 bs.

(** The [Auction] records of a settlement, one per bid, in loop order. *)
Definition record_auctions (now : Z) (l : Ledger) (total_amount total_cycles : Z)
  (bs : list (Principal * Z)) : Ledger :=
  foldl (fun l pc => record_auction now l pc.1 (share total_amount total_cycles pc.2)) l bs.

(** After Alice sends 100 to Bob in [md_fee_john] with fee ratio 0.5:
    the auction principal holds 5 tokens of fees. *)
Definition st_after_fee : CanisterState :=
  match transfer 0 (init 0 md_fee_john) "alice" "bob" 100 None (5 * 10 ^ 11) with
  | Some (st, _) => st
  | None => init 0 md_fee_john
  end.

(** Alice bid 1000 cycles and Bob 2000. *)
Definition bidding_example : BiddingState :=
  mkBiddingState (<["alice" := 1000]> (<["bob" := 2000]> ∅)) 3000 (5 * 10 ^ 11).

(* ------------------------------------------------------------------ *)
(** ** Further queries and ledger operations (ledger.rs, state.rs, canister.rs) *)

(** [Ledger::is_empty]. *)
Definition is_empty (l : Ledger) : bool := len l =? 0.

(** [Ledger::get_len_user_history], served by
    [TokenCanisterAPI::get_user_transaction_count]. *)
Definition get_len_user_history (l : Ledger) (user : Principal) : nat :=
  length (filter (fun tx => (bool_decide (to tx = user) || bool_decide (from tx = user)
                             || bool_decide (caller tx = Some user)) = true) (history l)).

(** [Ledger::batch_transfer]: the lazy [map] is run by [collect], one
    [Ledger::transfer] per pair, in order. *)
Fixpoint ledger_batch_transfer (now : Z) (l : Ledger) (from : Principal)
  (transfers : list (Principal * Z)) (fee : Z) : list TxId * Ledger :=
  match transfers with
  | [] => ([], l)
  | (to, amount) :: rest =>
    let '(id, l1) := ledger_transfer now l from to amount fee in
    let '(ids, l2) := ledger_batch_transfer now l1 from rest fee in
    (id :: ids, l2)
  end.

(** [Iterator::reduce]. *)
Definition reduce {A} (f : A -> A -> A) (xs : list A) : option A :=
  match xs with
  | [] => None
  | x :: rest => Some (foldl f x rest)
  end.

(** [CanisterState::allowance_size]: the [usize] sum of the inner map
    sizes, in [HashMap] iteration order; it does not wrap, each entry
    taking room in the canister's memory. *)
Definition allowance_size (st : CanisterState) : nat :=
  default 0%nat (reduce Nat.add ((fun kv => size kv.2) <$> map_to_list (allowances st))).

(** [CanisterState::user_approvals]. *)
Definition user_approvals (st : CanisterState) (who : Principal) : list (Principal * Z) :=
  match allowances st !! who with
  | Some allow => map_to_list allow
  | None => []
  end.

(** [CanisterState::get_metadata]. *)
Definition get_metadata (st : CanisterState) : Metadata.t :=
  let s := stats st in
  Metadata.mk (StatsData.logo s) (StatsData.name s) (StatsData.symbol s)
    (StatsData.decimals s) (StatsData.total_supply s) (StatsData.owner s)
    (StatsData.fee s) (StatsData.fee_to s) (Some (StatsData.is_test_token s)).

(** [TokenCanisterAPI::get_transaction]: [None] is the trap
    ["Transaction {} does not exist"]. *)
Definition get_transaction (usize_max : Z) (st : CanisterState) (id : TxId) : option TxRecord :=
  get usize_max (ledger st) id.

(** [TokenCanisterAPI::history_size]. *)
Definition history_size (st : CanisterState) : Z := len (ledger st).

(** Ledgers grown from [l] by [push]es of [Succeeded] records numbered
    [next_id], as every operation of the canister grows its ledger. *)
Inductive pushed (l : Ledger) : Ledger -> Prop :=
| pushed_refl : pushed l l
| pushed_push l' r :
    pushed l l' -> index r = next_id l' -> status r = Succeeded -> pushed l (push l' r).

(** The keys of the pending notifications are the indices of the
    retained records. *)
Definition notifications_wf (l : Ledger) : Prop :=
  forall id, is_Some (notifications l !! id) <-> vec_offset l <= id < next_id l.

(** Invariant A1 of the spec on allowances: no zero allowance, no empty
    inner map. *)
Definition allowances_elided (al : Allowances) : Prop :=
  map_Forall (fun _ inner => inner <> ∅ /\ map_Forall (fun _ v => v <> 0) inner) al.

(** No balance entry is zero (nor negative). *)
Definition balances_positive (b : Balances) : Prop :=
  map_Forall (fun _ v => 0 < v) b.

(** The total of the inner allowance map sizes. *)
Definition allowance_entries (al : Allowances) : nat :=
  map_fold (fun _ inner acc => (size inner + acc)%nat) 0%nat al.

(** Holders in order of non-increasing balance. *)
Definition balance_desc (x y : Principal * Z) : Prop := y.2 <= x.2.

(** Alice holds 1000, Bob 500 and Carol 200. *)
Definition holders_example : Balances :=
  <["alice" := 1000]> (<["bob" := 500]> (<["carol" := 200]> ∅)).

(** The ledger invariants kept by [push]. *)
Definition ledger_inv (l : Ledger) : Prop :=
  ledger_wf l /\ notifications_wf l /\
  Z.of_nat (length (history l)) <= MAX_HISTORY_LENGTH + HISTORY_REMOVAL_BATCH_SIZE /\ Forall (fun r => status r = Succeeded) (history l).

(** The [Transfer] records [batch_transfer] appends, numbered from [n]. *)
Definition batch_records (now n : Z) (from : Principal) (transfers : list (Principal * Z))
  (fee : Z) : list TxRecord :=
  zip_with (fun id ta => TxRecord_transfer now id from ta.1 ta.2 fee)
    (seqZ n (Z.of_nat (length transfers))) transfers.

(* ================================================================== *)
(** * Proofs *)

(* ------------------------------------------------------------------ *)
(** ** Sums of balances *)

Section SumBalances.
Implicit Types (b : Balances) (x k : Principal) (v : Z).

Lemma sum_balances_empty : sum_balances ∅ = 0.
Proof. apply map_fold_empty. Qed.

Lemma sum_balances_insert_new b k v :
  b !! k = None -> sum_balances (<[k := v]> b) = v + sum_balances b.
Proof.
  intros Hk. unfold sum_balances.
  apply (map_fold_insert_L (fun (_ : Principal) (v acc : Z) => v + acc) 0 k v b);
    [intros; lia | exact Hk].
Qed.

Lemma sum_balances_delete_lookup b k v :
  b !! k = Some v -> sum_balances b = v + sum_balances (delete k b).
Proof.
  intros Hk. unfold sum_balances.
  apply (map_fold_delete_L (fun (_ : Principal) (v acc : Z) => v + acc) 0 k v b);
    [intros; lia | exact Hk].
Qed.

Lemma sum_balances_delete b k :
  sum_balances (delete k b) = sum_balances b - balance_of b k.
Proof.
  unfold balance_of. destruct (b !! k) as [v|] eqn:Hk; simpl.
  - rewrite (sum_balances_delete_lookup b k v Hk). lia.
  - rewrite delete_id by exact Hk. lia.
Qed.

Lemma sum_balances_insert b k v :
  sum_balances (<[k := v]> b) = v + sum_balances b - balance_of b k.
Proof.
  rewrite <- insert_delete_eq.
  rewrite sum_balances_insert_new by apply lookup_delete_eq.
  rewrite sum_balances_delete. lia.
Qed.

Lemma balance_of_insert b k v x :
  balance_of (<[k := v]> b) x = if decide (k = x) then v else balance_of b x.
Proof.
  unfold balance_of. destruct (decide (k = x)) as [<-|Hne].
  - by rewrite lookup_insert_eq.
  - by rewrite lookup_insert_ne.
Qed.

Lemma balance_of_delete b k x :
  balance_of (delete k b) x = if decide (k = x) then 0 else balance_of b x.
Proof.
  unfold balance_of. destruct (decide (k = x)) as [<-|Hne].
  - by rewrite lookup_delete_eq.
  - by rewrite lookup_delete_ne.
Qed.

Lemma sum_balances_nonneg b :
  map_Forall (fun _ v => 0 <= v) b -> 0 <= sum_balances b.
Proof.
  induction b as [|k v b Hk IH] using map_ind; intros Hpos.
  - rewrite sum_balances_empty. lia.
  - rewrite sum_balances_insert_new by exact Hk.
    apply map_Forall_insert in Hpos as [Hv Hb]; [|exact Hk].
    specialize (IH Hb). lia.
Qed.

Lemma map_Forall_delete_nonneg b k :
  map_Forall (fun _ v => 0 <= v) b -> map_Forall (fun _ v => 0 <= v) (delete k b).
Proof. intros H. by apply map_Forall_delete. Qed.

Lemma balance_of_nonneg b x :
  map_Forall (fun _ v => 0 <= v) b -> 0 <= balance_of b x.
Proof.
  intros H. unfold balance_of. destruct (b !! x) eqn:Hx; simpl; [|lia].
  exact (H x z Hx).
Qed.

Lemma balance_le_sum b x :
  map_Forall (fun _ v => 0 <= v) b -> balance_of b x <= sum_balances b.
Proof.
  intros H. pose proof (sum_balances_delete b x) as Hd.
  pose proof (sum_balances_nonneg (delete x b) (map_Forall_delete_nonneg b x H)). lia.
Qed.

Lemma two_balances_le_sum b x k :
  map_Forall (fun _ v => 0 <= v) b -> x <> k ->
  balance_of b x + balance_of b k <= sum_balances b.
Proof.
  intros H Hne. pose proof (sum_balances_delete b x) as Hd.
  pose proof (balance_le_sum (delete x b) k (map_Forall_delete_nonneg b x H)) as Hk.
  rewrite balance_of_delete in Hk. destruct (decide (x = k)); [congruence|]. lia.
Qed.
End SumBalances.

(* ------------------------------------------------------------------ *)
(** ** transfer_balance and charge_fee *)

Ltac bal_rewrite :=
  repeat first [ rewrite sum_balances_insert | rewrite sum_balances_delete
               | rewrite balance_of_insert | rewrite balance_of_delete ].

Ltac decide_cases :=
  unfold ind in *;
  repeat match goal with
         | |- context [decide (?p = ?q)] => destruct (decide (p = q)); subst
         | H : context [decide (?p = ?q)] |- _ => destruct (decide (p = q)); subst
         end.

Lemma transfer_balance_err b from to a b' e :
  transfer_balance b from to a = Some (b', Err e) -> b' = b.
Proof.
  unfold transfer_balance, tokens_sub, tokens_add.
  intros Htb. repeat case_match; simplify_eq; reflexivity.
Qed.

Lemma transfer_balance_ok_balance b from to a b' u :
  transfer_balance b from to a = Some (b', Ok u) ->
  forall x, balance_of b' x = balance_of b x - ind from x a + ind to x a.
Proof.
  unfold transfer_balance, tokens_sub, tokens_add.
  intros Htb. repeat case_match; simplify_eq; intros x.
  - apply Z.eqb_eq in H. subst. unfold ind. repeat case_decide; lia.
  - rename select (b !! from = Some _) into Hf.
    rename select (<[_:=_]> _ !! from = Some _) into Hv.
    rename select ((_ =? 0) = true) into H0. apply Z.eqb_eq in H0.
    unfold balance_of, ind in *. rewrite ?lookup_delete, ?lookup_insert in *.
    repeat case_decide; subst; simplify_eq; rewrite ?Hf in *; simpl in *; lia.
  - rename select (b !! from = Some _) into Hf.
    unfold balance_of, ind in *. rewrite ?lookup_insert in *.
    repeat case_decide; subst; simplify_eq; rewrite ?Hf in *; simpl in *; lia.
Qed.

Lemma transfer_balance_sum b from to a b' r :
  transfer_balance b from to a = Some (b', r) -> sum_balances b' = sum_balances b.
Proof.
  destruct r as [u|e]; [|intros H; apply transfer_balance_err in H; by subst].
  unfold transfer_balance, tokens_sub, tokens_add.
  intros Htb. repeat case_match; simplify_eq; [reflexivity| |].
  - rename select (b !! from = Some _) into Hf.
    rename select (<[_:=_]> _ !! from = Some _) into Hv.
    rename select ((_ =? 0) = true) into H0. apply Z.eqb_eq in H0.
    rewrite sum_balances_delete, !sum_balances_insert.
    unfold balance_of. rewrite Hv, Hf. simpl. lia.
  - rename select (b !! from = Some _) into Hf.
    rewrite !sum_balances_insert. unfold balance_of. rewrite Hf. simpl. lia.
Qed.

Lemma transfer_balance_ok_le b from to a b' u :
  transfer_balance b from to a = Some (b', Ok u) -> a = 0 \/ a <= balance_of b from.
Proof.
  unfold transfer_balance, tokens_sub, tokens_add.
  intros Htb. repeat case_match; simplify_eq.
  - left. by apply Z.eqb_eq.
  - right. unfold balance_of. rename select (b !! from = Some _) into Hf. rewrite Hf.
    simpl. by apply Z.leb_le.
  - right. unfold balance_of. rename select (b !! from = Some _) into Hf. rewrite Hf.
    simpl. by apply Z.leb_le.
Qed.

Lemma transfer_balance_wf b from to a b' u :
  balances_wf b -> 0 <= a -> transfer_balance b from to a = Some (b', Ok u) ->
  balances_wf b'.
Proof.
  intros [Hpos Hsum] Ha Htb. split.
  - intros x v Hx.
    assert (Hv : v = balance_of b' x) by (unfold balance_of; by rewrite Hx).
    rewrite Hv, (transfer_balance_ok_balance _ _ _ _ _ _ Htb x).
    destruct (transfer_balance_ok_le _ _ _ _ _ _ Htb) as [->|Hle].
    + unfold ind. pose proof (balance_of_nonneg b x Hpos). repeat case_decide; lia.
    + pose proof (balance_of_nonneg b x Hpos). unfold ind.
      repeat case_decide; subst; lia.
  - rewrite (transfer_balance_sum _ _ _ _ _ _ Htb). exact Hsum.
Qed.

Lemma transfer_balance_ok_exists b from to a :
  balances_wf b -> 0 <= a -> a <= balance_of b from ->
  exists b', transfer_balance b from to a = Some (b', Ok tt).
Proof.
  intros [Hpos Hsum] Ha Hle. unfold transfer_balance, tokens_sub, tokens_add.
  destruct (a =? 0) eqn:Ha0; [eauto|]. apply Z.eqb_neq in Ha0.
  pose proof (balance_le_sum b from Hpos) as Hfrom.
  unfold balance_of in Hle, Hfrom. destruct (b !! from) as [z|] eqn:Hf; simpl in Hle; [|lia].
  simpl in Hfrom. rewrite (proj2 (Z.leb_le a z)) by lia.
  assert (Hov : default 0 (<[from:=z - a]> b !! to) + a <= MAX128).
  { destruct (decide (from = to)) as [<-|Hne].
    - rewrite lookup_insert_eq. simpl. lia.
    - rewrite lookup_insert_ne by done.
      pose proof (two_balances_le_sum b from to Hpos Hne) as H2.
      unfold balance_of in H2. rewrite Hf in H2. simpl in H2. lia. }
  rewrite (proj2 (Z.leb_le _ _) Hov).
  rewrite lookup_insert. destruct (decide (to = from)); rewrite ?lookup_insert_eq;
    destruct (_ =? 0); eauto.
Qed.

Lemma auction_part_bounds fee k :
  0 <= fee -> 0 <= k <= INT_CONVERSION_K -> 0 <= auction_part fee k <= fee.
Proof.
  intros Hf Hk. unfold auction_part, INT_CONVERSION_K in *. split.
  - apply Z.div_pos; nia.
  - apply Z.div_le_upper_bound; nia.
Qed.

Lemma charge_fee_sum b user fee_to fee k b' r :
  charge_fee b user fee_to fee k = Some (b', r) -> sum_balances b' = sum_balances b.
Proof.
  unfold charge_fee. intros H. repeat case_match; simplify_eq; try reflexivity.
  all: repeat match goal with
         | H : transfer_balance _ _ _ _ = Some _ |- _ => apply transfer_balance_sum in H
         end; congruence.
Qed.

(** [charge_fee] with a [Tokens128] fee covered by the payer's balance and
    a ratio in [[0, 1]] succeeds; [fee - auction_part] goes to [fee_to] and
    [auction_part] to the auction principal. *)
Lemma charge_fee_ok b user fee_to fee k :
  balances_wf b -> 0 <= fee -> fee <= balance_of b user -> 0 <= k <= INT_CONVERSION_K ->
  exists b', charge_fee b user fee_to fee k = Some (b', Ok tt) /\ balances_wf b' /\
    forall x, balance_of b' x =
      balance_of b x - ind user x fee + ind fee_to x (fee - auction_part fee k)
      + ind auction_principal x (auction_part fee k).
Proof.
  intros Hwf Hf Hle Hk.
  pose proof (auction_part_bounds fee k Hf Hk) as Hap.
  unfold charge_fee. destruct (fee =? 0) eqn:Hf0.
  - apply Z.eqb_eq in Hf0. subst fee. exists b. split; [reflexivity|]. split; [exact Hwf|].
    intros x. assert (auction_part 0 k = 0) as -> by (unfold auction_part; reflexivity).
    unfold ind. repeat case_decide; lia.
  - fold (auction_part fee k). set (ap := auction_part fee k) in *.
    pose proof Hwf as [Hpos Hsum].
    pose proof (balance_le_sum b user Hpos).
    unfold to_tokens128, tokens_sub.
    rewrite (proj2 (Z.leb_le ap MAX128)) by lia.
    rewrite (proj2 (Z.leb_le ap fee)) by lia.
    destruct (transfer_balance_ok_exists b user fee_to (fee - ap)) as [b1 Hb1]; [done|lia|lia|].
    rewrite Hb1.
    pose proof (transfer_balance_ok_balance _ _ _ _ _ _ Hb1) as Hbal1.
    pose proof (transfer_balance_wf b user fee_to (fee - ap) b1 tt Hwf ltac:(lia) Hb1) as Hwf1.
    destruct (transfer_balance_ok_exists b1 user auction_principal ap) as [b2 Hb2];
      [done|lia| |].
    { rewrite Hbal1. unfold ind. repeat case_decide; lia. }
    exists b2. split; [exact Hb2|]. split.
    + exact (transfer_balance_wf b1 user auction_principal ap b2 tt Hwf1 ltac:(lia) Hb2).
    + intros x. rewrite (transfer_balance_ok_balance _ _ _ _ _ _ Hb2 x), Hbal1.
      unfold ind. repeat case_decide; lia.
Qed.

(* ------------------------------------------------------------------ *)
(** ** Total supply *)

Ltac sums :=
  repeat match goal with
  | H : charge_fee _ _ _ _ _ = Some _ |- _ => apply charge_fee_sum in H
  | H : transfer_balance _ _ _ _ = Some _ |- _ => apply transfer_balance_sum in H
  end.

Ltac chain_sums :=
  repeat match goal with
         | H : sum_balances ?x = _ |- context [sum_balances ?x] => rewrite H
         end;
  reflexivity.

Lemma disburse_loop_sum now pool tc bs b l t b' l' t' :
  disburse_loop now pool tc bs b l t = Some (b', l', t') -> sum_balances b' = sum_balances b.
Proof.
  revert b l t. induction bs as [|[bidder c] bs IH]; intros b l t H; simpl in H.
  - by simplify_eq.
  - repeat case_match; simplify_eq.
    rename select (transfer_balance _ _ _ _ = Some _) into Hb.
    apply transfer_balance_sum in Hb. rewrite (IH _ _ _ H). exact Hb.
Qed.

Lemma step_supply_invariant st st' :
  step st st' -> supply_invariant st -> supply_invariant st'.
Proof.
  unfold supply_invariant. intros Hs Hinv. destruct Hs as
    [now st caller to amount fee_limit k st' r _ H
    |now st caller from to amount k st' r _ H
    |now st caller spender amount k st' r _ H
    |now st caller to amount st' r _ H
    |now st caller from amount st' r _ H
    |now st bidding n st' info H
    |st v _|st p|st p]; simpl; try exact Hinv.
  - unfold transfer in H. simpl in H. repeat case_match; simplify_eq; simpl; sums; chain_sums.
  - unfold transfer_from in H. simpl in H.
    repeat case_match; simplify_eq; simpl; sums; chain_sums.
  - unfold approve in H. simpl in H. repeat case_match; simplify_eq; simpl; sums; chain_sums.
  - unfold mint, tokens_add in H. repeat case_match; simplify_eq; simpl; try exact Hinv.
    rewrite sum_balances_insert. unfold balance_of. rewrite Hinv; lia.
  - unfold burn, tokens_sub in H. repeat case_match; simplify_eq; simpl; try exact Hinv.
    + rewrite sum_balances_delete. unfold balance_of.
      rename select (balances st !! from = Some _) into Hf. rewrite Hf. simpl.
      rename select ((_ =? 0) = true) into Hz. apply Z.eqb_eq in Hz. lia.
    + rewrite sum_balances_insert. unfold balance_of.
      rename select (balances st !! from = Some _) into Hf. rewrite Hf. simpl. lia.
    + rename select ((negb _) = false) into Hz. apply negb_false_iff, Z.eqb_eq in Hz. lia.
  - unfold disburse_rewards in H.
    destruct (disburse_loop _ _ _ _ _ _ _) as [[[b l] t]|] eqn:Hl; simpl in H; [|discriminate].
    simplify_eq. simpl. apply disburse_loop_sum in Hl. rewrite Hl. exact Hinv.
Qed.

Lemma init_supply_invariant now md : supply_invariant (init now md).
Proof.
  unfold supply_invariant, init. simpl.
  rewrite sum_balances_insert_new by apply lookup_empty.
  rewrite sum_balances_empty. lia.
Qed.

(** C1: in every state reachable from [init], the balances sum to
    [stats.total_supply]; and every mutating operation (transfer,
    transfer_from, approve, mint, burn, auction disbursement, as well as
    the fee and owner settings) keeps that equality. *)
Theorem sum_balances_eq_total_supply :
  (forall st, reachable st ->
     sum_balances (balances st) = StatsData.total_supply (stats st)) /\
  (forall st st', step st st' ->
     sum_balances (balances st) = StatsData.total_supply (stats st) ->
     sum_balances (balances st') = StatsData.total_supply (stats st')).
Proof.
  split.
  - intros st Hr. induction Hr as [now md _|st st' _ IH Hs].
    + apply init_supply_invariant.
    + exact (step_supply_invariant st st' Hs IH).
  - exact step_supply_invariant.
Qed.

Lemma sum_balances_eq_total_supply_witness :
  reachable (init 0 md_alice) /\
  sum_balances (balances (init 0 md_alice)) = StatsData.total_supply (stats (init 0 md_alice)).
Proof.
  assert (Hr : reachable (init 0 md_alice))
    by (apply reachable_init; unfold is_tokens, MAX128; simpl; lia).
  split; [exact Hr|].
  exact (proj1 sum_balances_eq_total_supply _ Hr).
Defined.

(* ------------------------------------------------------------------ *)
(** ** transfer *)

Section TransferSpec.
Variables (now : Z) (st : CanisterState) (caller to : Principal) (amount : Z)
          (fee_limit : option Z) (k : Z).

Let b := balances st.
Let fee := StatsData.fee (stats st).
Let fee_to := StatsData.fee_to (stats st).
Let ap := auction_part fee k.

Lemma transfer_fee_limit :
  (exists fl, fee_limit = Some fl /\ fl < fee) ->
  transfer now st caller to amount fee_limit k = Some (st, Err FeeExceededLimit).
Proof.
  intros (fl & -> & Hlt). unfold transfer. simpl. fold fee.
  rewrite (proj2 (Z.ltb_lt fl fee) Hlt). reflexivity.
Qed.

Lemma transfer_not_exceeded :
  ~ (exists fl, fee_limit = Some fl /\ fl < fee) -> fee_limit_exceeded fee fee_limit = false.
Proof.
  intros Hn. destruct fee_limit as [fl|]; simpl; [|reflexivity].
  destruct (fl <? fee) eqn:E; [|reflexivity].
  exfalso. apply Hn. exists fl. split; [reflexivity|]. by apply Z.ltb_lt.
Qed.

Lemma transfer_overflow :
  ~ (exists fl, fee_limit = Some fl /\ fl < fee) -> MAX128 < amount + fee ->
  transfer now st caller to amount fee_limit k = Some (st, Err AmountOverflow).
Proof.
  intros Hn Hov. unfold transfer. simpl. fold fee. rewrite (transfer_not_exceeded Hn).
  unfold tokens_add. rewrite (proj2 (Z.leb_gt _ _) Hov). reflexivity.
Qed.

Lemma transfer_insufficient :
  ~ (exists fl, fee_limit = Some fl /\ fl < fee) -> amount + fee <= MAX128 ->
  balance_of b caller < amount + fee ->
  transfer now st caller to amount fee_limit k = Some (st, Err InsufficientBalance).
Proof.
  intros Hn Hov Hlt. unfold transfer. simpl. fold fee. rewrite (transfer_not_exceeded Hn).
  unfold tokens_add. rewrite (proj2 (Z.leb_le _ _) Hov). fold b.
  rewrite (proj2 (Z.ltb_lt _ _) Hlt). reflexivity.
Qed.

Lemma transfer_success :
  balances_wf b -> is_tokens amount -> is_tokens fee -> 0 <= k <= INT_CONVERSION_K ->
  ~ (exists fl, fee_limit = Some fl /\ fl < fee) -> amount + fee <= MAX128 ->
  amount + fee <= balance_of b caller ->
  exists st', transfer now st caller to amount fee_limit k = Some (st', Ok (next_id (ledger st))) /\
    ledger st' = push (ledger st) (TxRecord_transfer now (next_id (ledger st)) caller to amount fee) /\
    stats st' = stats st /\ allowances st' = allowances st /\ balances_wf (balances st') /\
    forall x, balance_of (balances st') x =
      balance_of b x - ind caller x (amount + fee) + ind to x amount
      + ind fee_to x (fee - ap) + ind auction_principal x ap.
Proof.
  intros Hwf Ha Hf Hk Hn Hov Hle. unfold transfer. simpl. fold fee fee_to b.
  rewrite (transfer_not_exceeded Hn). unfold tokens_add.
  rewrite (proj2 (Z.leb_le _ _) Hov).
  rewrite (proj2 (Z.ltb_ge _ _) Hle).
  destruct (charge_fee_ok b caller fee_to fee k Hwf) as (b1 & Hb1 & Hwf1 & Hbal1);
    [unfold is_tokens in *; lia|unfold is_tokens in *; lia|exact Hk|].
  rewrite Hb1.
  destruct (transfer_balance_ok_exists b1 caller to amount Hwf1) as [b2 Hb2];
    [unfold is_tokens in *; lia| |].
  { rewrite Hbal1. fold ap. pose proof (auction_part_bounds fee k) as Hap.
    unfold is_tokens in *. unfold ind. fold ap in Hap. repeat case_decide; lia. }
  rewrite Hb2. eexists. split; [reflexivity|]. simpl.
  split; [reflexivity|]. split; [reflexivity|]. split; [reflexivity|]. split.
  - unfold is_tokens in Ha. exact (transfer_balance_wf b1 caller to amount b2 tt Hwf1 ltac:(lia) Hb2).
  - intros x. rewrite (transfer_balance_ok_balance _ _ _ _ _ _ Hb2 x), Hbal1.
    fold ap. unfold ind. repeat case_decide; lia.
Qed.
End TransferSpec.

(** C2 (amended): for [caller <> to], in a state whose balances are
    [Tokens128] values summing to at most [2^128 - 1] and with a fee ratio in
    [[0, 1]]: [transfer] returns [FeeExceededLimit] when a fee limit below
    the fee is given, then [AmountOverflow] when [amount + fee] overflows,
    then [InsufficientBalance] when the caller's balance is below
    [amount + fee]; otherwise it succeeds, appends one [Transfer] record
    and returns its id. The caller is debited [amount + fee] and the
    recipient credited [amount] when neither [fee_to] nor the auction
    principal is the caller or the recipient (otherwise their fee parts
    land on them). *)
Theorem transfer_outcomes now st caller to amount fee_limit k :
  caller <> to -> balances_wf (balances st) -> is_tokens amount ->
  is_tokens (StatsData.fee (stats st)) -> 0 <= k <= INT_CONVERSION_K ->
  let fee := StatsData.fee (stats st) in
  let fee_to := StatsData.fee_to (stats st) in
  let b := balances st in
  ((exists fl, fee_limit = Some fl /\ fl < fee) ->
     transfer now st caller to amount fee_limit k = Some (st, Err FeeExceededLimit)) /\
  (~ (exists fl, fee_limit = Some fl /\ fl < fee) -> MAX128 < amount + fee ->
     transfer now st caller to amount fee_limit k = Some (st, Err AmountOverflow)) /\
  (~ (exists fl, fee_limit = Some fl /\ fl < fee) -> amount + fee <= MAX128 ->
     balance_of b caller < amount + fee ->
     transfer now st caller to amount fee_limit k = Some (st, Err InsufficientBalance)) /\
  (~ (exists fl, fee_limit = Some fl /\ fl < fee) -> amount + fee <= MAX128 ->
     amount + fee <= balance_of b caller ->
     exists st', transfer now st caller to amount fee_limit k
                   = Some (st', Ok (next_id (ledger st))) /\
       ledger st' = push (ledger st)
                      (TxRecord_transfer now (next_id (ledger st)) caller to amount fee) /\
       (fee_to <> caller -> fee_to <> to ->
        auction_principal <> caller -> auction_principal <> to ->
        balance_of (balances st') caller = balance_of b caller - (amount + fee) /\
        balance_of (balances st') to = balance_of b to + amount)).
Proof.
  intros Hne Hwf Ha Hf Hk fee fee_to b. split; [|split; [|split]].
  - apply transfer_fee_limit.
  - apply transfer_overflow.
  - apply transfer_insufficient.
  - intros Hn Hov Hle.
    destruct (transfer_success now st caller to amount fee_limit k Hwf Ha Hf Hk Hn Hov Hle)
      as (st' & Hst' & Hl & _ & _ & _ & Hbal).
    exists st'. split; [exact Hst'|]. split; [exact Hl|].
    intros H1 H2 H3 H4. rewrite !Hbal. unfold ind.
    fold fee_to. fold b. repeat case_decide; subst; try congruence; lia.
Qed.

Ltac tokens_bound := unfold is_tokens, MAX128, INT_CONVERSION_K in *; simpl; lia.
Ltac wf_eval := apply (bool_decide_unpack _); vm_compute; reflexivity.

Lemma transfer_outcomes_witness :
  exists st', transfer 0 (init 0 md_fee_john) "alice" "bob" 100 None 0
                = Some (st', Ok (next_id (ledger (init 0 md_fee_john)))) /\
    balance_of (balances st') "alice" = 890 /\ balance_of (balances st') "bob" = 100.
Proof.
  assert (H1 : "alice" <> "bob") by discriminate.
  assert (H2 : balances_wf (balances (init 0 md_fee_john))) by wf_eval.
  assert (H3 : is_tokens 100) by tokens_bound.
  assert (H4 : is_tokens (StatsData.fee (stats (init 0 md_fee_john)))) by tokens_bound.
  assert (H5 : 0 <= 0 <= INT_CONVERSION_K) by tokens_bound.
  destruct (transfer_outcomes 0 (init 0 md_fee_john) "alice" "bob" 100 None 0 H1 H2 H3 H4 H5)
    as (_ & _ & _ & Hok).
  destruct Hok as (st' & Hst & _ & Hbal).
  - intros (fl & Hfl & _). discriminate.
  - tokens_bound.
  - vm_compute. discriminate.
  - exists st'. split; [exact Hst|].
    destruct Hbal as [Ha Hb]; [discriminate|discriminate|discriminate|discriminate|].
    rewrite Ha, Hb. split; reflexivity.
Defined.

(** C2 counterexample: with [fee_to] the caller (fee 10, ratio 0), a
    successful [transfer] of 100 debits Alice by 100, not by [100 + 10]. *)
Lemma transfer_fee_to_caller_counterexample :
  match transfer 0 (init 0 md_fee_alice) "alice" "bob" 100 None 0 with
  | Some (st', Ok _) =>
      balance_of (balances st') "alice" = 900 /\
      balance_of (balances st') "alice"
        <> balance_of (balances (init 0 md_fee_alice)) "alice" - (100 + 10)
  | _ => False
  end.
Proof. vm_compute. split; [reflexivity|discriminate]. Qed.

(* ------------------------------------------------------------------ *)
(** ** [transfer_from] *)

Section TransferFromSpec.
Variables (now : Z) (st : CanisterState) (caller from to : Principal) (amount k : Z).

Let b := balances st.
Let fee := StatsData.fee (stats st).
Let fee_to := StatsData.fee_to (stats st).

Lemma transfer_from_overflow :
  MAX128 < amount + fee ->
  transfer_from now st caller from to amount k = Some (st, Err AmountOverflow).
Proof.
  intros Hov. unfold transfer_from. simpl. fold fee.
  unfold tokens_add. rewrite (proj2 (Z.leb_gt _ _) Hov). reflexivity.
Qed.

Lemma transfer_from_insufficient_allowance :
  amount + fee <= MAX128 -> allowance st from caller < amount + fee ->
  transfer_from now st caller from to amount k = Some (st, Err InsufficientAllowance).
Proof.
  intros Hov Hlt. unfold transfer_from. simpl. fold fee.
  unfold tokens_add. rewrite (proj2 (Z.leb_le _ _) Hov).
  rewrite (proj2 (Z.ltb_lt _ _) Hlt). reflexivity.
Qed.

Lemma transfer_from_insufficient_balance :
  amount + fee <= MAX128 -> amount + fee <= allowance st from caller ->
  balance_of b from < amount + fee ->
  transfer_from now st caller from to amount k = Some (st, Err InsufficientBalance).
Proof.
  intros Hov Hle Hlt. unfold transfer_from. simpl. fold fee b.
  unfold tokens_add. rewrite (proj2 (Z.leb_le _ _) Hov).
  rewrite (proj2 (Z.ltb_ge _ _) Hle), (proj2 (Z.ltb_lt _ _) Hlt). reflexivity.
Qed.

Lemma transfer_from_ok_shape st' id :
  transfer_from now st caller from to amount k = Some (st', Ok id) ->
  id = next_id (ledger st) /\
  ledger st' = push (ledger st) (TxRecord_transfer_from now id caller from to amount fee) /\
  allowance st' from caller = allowance st from caller - (amount + fee) /\
  (allowance st' from caller = 0 ->
   match allowances st' !! from with
   | Some inner => inner !! caller = None /\ inner <> ∅
   | None => True
   end).
Proof.
  unfold transfer_from, ledger_transfer_from. simpl. fold fee fee_to b.
  intros Hst. unfold tokens_add, tokens_sub in Hst.
  destruct (amount + fee <=? MAX128) eqn:Hov; [|discriminate].
  destruct (allowance st from caller <? amount + fee) eqn:Hal; [discriminate|].
  destruct (balance_of b from <? amount + fee); [discriminate|].
  destruct (charge_fee b from fee_to fee k) as [[b1 [[]|e]]|]; [|discriminate|discriminate].
  destruct (transfer_balance b1 from to amount) as [[b2 [[]|e]]|]; [|discriminate|discriminate].
  destruct (allowances st !! from) as [inner|] eqn:Hfrom; [|discriminate].
  destruct (inner !! caller) as [a|] eqn:Hcaller; [|discriminate].
  destruct (amount + fee <=? a) eqn:Hsub; [|discriminate].
  apply Z.leb_le in Hsub.
  assert (Ha : allowance st from caller = a) by (unfold allowance; rewrite Hfrom, Hcaller; done).
  injection Hst as <- <-. simpl.
  split; [reflexivity|]. split; [reflexivity|].
  rewrite Ha. unfold allowance. simpl.
  destruct (a - (amount + fee) =? 0) eqn:Hz.
  - apply Z.eqb_eq in Hz.
    case_decide as Hemp.
    + rewrite lookup_delete_eq. split; [lia|done].
    + rewrite lookup_insert_eq, lookup_delete_eq. split; [lia|]. done.
  - apply Z.eqb_neq in Hz.
    rewrite lookup_insert_eq, lookup_insert_eq. split; [reflexivity|lia].
Qed.

Lemma transfer_from_success :
  balances_wf b -> is_tokens amount -> is_tokens fee -> 0 <= k <= INT_CONVERSION_K ->
  0 < amount + fee -> amount + fee <= MAX128 ->
  amount + fee <= allowance st from caller -> amount + fee <= balance_of b from ->
  exists st', transfer_from now st caller from to amount k = Some (st', Ok (next_id (ledger st))).
Proof.
  intros Hwf Ha Hf Hk Hpos Hov Hal Hle. unfold transfer_from, ledger_transfer_from.
  simpl. fold fee fee_to b.
  unfold tokens_add. rewrite (proj2 (Z.leb_le _ _) Hov).
  rewrite (proj2 (Z.ltb_ge _ _) Hal), (proj2 (Z.ltb_ge _ _) Hle).
  destruct (charge_fee_ok b from fee_to fee k Hwf) as (b1 & Hb1 & Hwf1 & Hbal1);
    [unfold is_tokens in *; lia|unfold is_tokens in *; lia|exact Hk|].
  rewrite Hb1.
  destruct (transfer_balance_ok_exists b1 from to amount Hwf1) as [b2 Hb2];
    [unfold is_tokens in *; lia| |].
  { rewrite Hbal1. pose proof (auction_part_bounds fee k) as Hap.
    unfold is_tokens in *. unfold ind. repeat case_decide; lia. }
  rewrite Hb2.
  unfold allowance in Hal.
  destruct (allowances st !! from) as [inner|]; [|lia].
  destruct (inner !! caller) as [a|]; [|lia].
  unfold tokens_sub. rewrite (proj2 (Z.leb_le _ _) Hal).
  eexists. reflexivity.
Qed.
End TransferFromSpec.

(** C3 (amended): for a state with well-formed balances, [Tokens128]
    amount and fee and a fee ratio in [[0, 1]], [transfer_from] (caller
    [caller] spending [from]'s tokens) first returns [AmountOverflow] when
    [amount + fee] exceeds [2^128 - 1]; otherwise it returns
    [InsufficientAllowance] when [allowance(from, caller) < amount + fee],
    then [InsufficientBalance] when [balance_of(from) < amount + fee]; it
    succeeds when [0 < amount + fee] and neither check fails, and on success
    it returns the next id, appends one [TransferFrom] record, decrements
    the allowance by exactly [amount + fee] and, when that leaves it zero,
    removes the spender entry and leaves no empty inner map for [from]. *)
Theorem transfer_from_outcomes now st caller from to amount k :
  balances_wf (balances st) -> is_tokens amount ->
  is_tokens (StatsData.fee (stats st)) -> 0 <= k <= INT_CONVERSION_K ->
  let fee := StatsData.fee (stats st) in
  (MAX128 < amount + fee ->
     transfer_from now st caller from to amount k = Some (st, Err AmountOverflow)) /\
  (amount + fee <= MAX128 -> allowance st from caller < amount + fee ->
     transfer_from now st caller from to amount k = Some (st, Err InsufficientAllowance)) /\
  (amount + fee <= MAX128 -> amount + fee <= allowance st from caller ->
     balance_of (balances st) from < amount + fee ->
     transfer_from now st caller from to amount k = Some (st, Err InsufficientBalance)) /\
  (0 < amount + fee -> amount + fee <= MAX128 -> amount + fee <= allowance st from caller ->
     amount + fee <= balance_of (balances st) from ->
     exists st', transfer_from now st caller from to amount k
                 = Some (st', Ok (next_id (ledger st)))) /\
  (forall st' id, transfer_from now st caller from to amount k = Some (st', Ok id) ->
     id = next_id (ledger st) /\
     ledger st' = push (ledger st) (TxRecord_transfer_from now id caller from to amount fee) /\
     allowance st' from caller = allowance st from caller - (amount + fee) /\
     (allowance st' from caller = 0 ->
      match allowances st' !! from with
      | Some inner => inner !! caller = None /\ inner <> ∅
      | None => True
      end)).
Proof.
  intros Hwf Ha Hf Hk fee.
  split; [apply transfer_from_overflow|].
  split; [apply transfer_from_insufficient_allowance|].
  split; [apply transfer_from_insufficient_balance|].
  split; [intros; by apply transfer_from_success|].
  apply transfer_from_ok_shape.
Qed.

Lemma transfer_from_outcomes_witness :
  exists st', transfer_from 0 st_approved "bob" "alice" "carol" 100 0
                = Some (st', Ok (next_id (ledger st_approved))) /\
    allowance st' "alice" "bob" = 400.
Proof.
  assert (H1 : balances_wf (balances st_approved)) by wf_eval.
  assert (H2 : is_tokens 100) by tokens_bound.
  assert (H3 : is_tokens (StatsData.fee (stats st_approved))) by (vm_compute; split; discriminate).
  assert (H4 : 0 <= 0 <= INT_CONVERSION_K) by tokens_bound.
  destruct (transfer_from_outcomes 0 st_approved "bob" "alice" "carol" 100 0 H1 H2 H3 H4)
    as (_ & _ & _ & Hex & Hshape).
  destruct Hex as [st' Hst]; [vm_compute; reflexivity|vm_compute; discriminate
    |vm_compute; discriminate|vm_compute; discriminate|].
  exists st'. split; [exact Hst|].
  destruct (Hshape st' _ Hst) as (_ & _ & Hal & _).
  rewrite Hal. vm_compute. reflexivity.
Defined.

(** C3 counterexample: Bob has no allowance from Alice, yet
    [transfer_from] of [2^128 - 1] tokens (fee 10) reports
    [AmountOverflow], not [InsufficientAllowance]. *)
Lemma transfer_from_overflow_first_counterexample :
  allowance (init 0 md_fee_john) "alice" "bob" < MAX128 + 10 /\
  transfer_from 0 (init 0 md_fee_john) "bob" "alice" "carol" MAX128 0
    = Some (init 0 md_fee_john, Err AmountOverflow).
Proof. split; vm_compute; reflexivity. Qed.

(** C4 (violated by the code): [mint(to, 0)] for a principal [to] with no
    balance creates the entry [(to, 0)] through [entry(to).or_default()],
    so a state reachable from [init] holds a zero balance key and is not
    zero-elided. *)
Theorem mint_zero_breaks_zero_elision :
  reachable st_minted /\ balances st_minted !! "bob" = Some 0 /\ ~ zero_elided st_minted.
Proof.
  assert (Hb : balances st_minted !! "bob" = Some 0) by (vm_compute; reflexivity).
  split; [|split; [exact Hb|]].
  - apply (reachable_step (init 0 md_alice)).
    + apply reachable_init. tokens_bound.
    + apply (step_mint 0 _ "alice" "bob" 0 _ (Ok 1)); [tokens_bound|].
      vm_compute. reflexivity.
  - intros [Hz _]. exact (Hz "bob" 0 Hb eq_refl).
Qed.

(* ------------------------------------------------------------------ *)
(** ** Ledger truncation and lookup *)

Lemma ledger_wf_lookup l :
  ledger_wf l <-> 0 <= vec_offset l /\
    forall i r, history l !! i = Some r -> index r = vec_offset l + Z.of_nat i.
Proof.
  unfold ledger_wf. split; intros [Hoff H]; split; auto.
  - intros i r Hi.
    assert (E : (index <$> history l) !! i = Some (index r))
      by (rewrite list_lookup_fmap, Hi; reflexivity).
    rewrite H in E. apply lookup_seqZ in E. lia.
  - apply list_eq. intros i. rewrite list_lookup_fmap.
    destruct (history l !! i) as [r|] eqn:Hi; simpl.
    + rewrite (H i r Hi). symmetry. apply lookup_seqZ_lt.
      apply lookup_lt_Some in Hi. lia.
    + symmetry. apply lookup_seqZ_ge. apply lookup_ge_None in Hi. lia.
Qed.

Lemma foldl_delete_lookup (rs : list TxRecord) (n : PendingNotifications) id :
  foldl (fun acc r => delete (index r) acc) n rs !! id =
    if decide (id ∈ index <$> rs) then None else n !! id.
Proof.
  revert n. induction rs as [|r rs IH]; intros n; simpl.
  - reflexivity.
  - rewrite IH.
    destruct (decide (id ∈ index <$> rs)) as [Hin|Hin];
      case_decide as Hin'; rewrite elem_of_cons in Hin'; try reflexivity; try tauto.
    + destruct Hin' as [Heq|Hin2]; [subst id; apply lookup_delete_eq|].
      exfalso. apply Hin. exact Hin2.
    + apply lookup_delete_ne. intros Heq. apply Hin'. left. symmetry. exact Heq.
Qed.

Lemma indices_take (h : list TxRecord) off (B : nat) id :
  (forall i r, h !! i = Some r -> index r = off + Z.of_nat i) -> (B <= length h)%nat ->
  id ∈ index <$> take B h <-> off <= id < off + Z.of_nat B.
Proof.
  intros H HB. rewrite list_elem_of_fmap. split.
  - intros (x & -> & Hx). apply list_elem_of_lookup in Hx as [j Hj].
    apply lookup_take_Some in Hj as [Hj Hlt]. rewrite (H j x Hj). lia.
  - intros Hid.
    destruct (lookup_lt_is_Some_2 h (Z.to_nat (id - off))) as [x Hx]; [lia|].
    exists x. split; [rewrite (H _ x Hx); lia|].
    apply (list_elem_of_lookup_2 _ (Z.to_nat (id - off))).
    apply lookup_take_Some. split; [exact Hx|lia].
Qed.

Lemma snoc_indices l r :
  (forall i x, history l !! i = Some x -> index x = vec_offset l + Z.of_nat i) ->
  index r = next_id l ->
  forall i x, (history l ++ [r]) !! i = Some x -> index x = vec_offset l + Z.of_nat i.
Proof.
  intros H Hr i x Hi. apply lookup_snoc_Some in Hi as [[_ Hi]|[-> <-]].
  - by apply H.
  - rewrite Hr. unfold next_id. reflexivity.
Qed.

Lemma push_cases l r :
  let h := history l ++ [r] in
  (MAX_HISTORY_LENGTH + HISTORY_REMOVAL_BATCH_SIZE < Z.of_nat (length h) /\
   push l r = mkLedger (drop (Z.to_nat HISTORY_REMOVAL_BATCH_SIZE) h)
                (vec_offset l + HISTORY_REMOVAL_BATCH_SIZE)
                (foldl (fun acc r => delete (index r) acc) (<[index r := None]> (notifications l))
                   (take (Z.to_nat HISTORY_REMOVAL_BATCH_SIZE) h))) \/
  (Z.of_nat (length h) <= MAX_HISTORY_LENGTH + HISTORY_REMOVAL_BATCH_SIZE /\
   push l r = mkLedger h (vec_offset l) (<[index r := None]> (notifications l))).
Proof.
  intros h. unfold push. fold h.
  destruct (MAX_HISTORY_LENGTH + HISTORY_REMOVAL_BATCH_SIZE <? Z.of_nat (length h)) eqn:E.
  - left. split; [by apply Z.ltb_lt|reflexivity].
  - right. split; [by apply Z.ltb_ge|reflexivity].
Qed.

Lemma push_wf l r : ledger_wf l -> index r = next_id l -> ledger_wf (push l r).
Proof.
  rewrite !ledger_wf_lookup. intros [Hoff H] Hr.
  pose proof (snoc_indices l r H Hr) as Hh.
  destruct (push_cases l r) as [[Hlen ->]|[Hlen ->]]; cbn [history vec_offset].
  - split; [unfold HISTORY_REMOVAL_BATCH_SIZE; lia|].
    intros i x Hi. rewrite lookup_drop in Hi. apply Hh in Hi.
    unfold HISTORY_REMOVAL_BATCH_SIZE in *. lia.
  - split; [exact Hoff|exact Hh].
Qed.

Lemma push_next_id l r : next_id (push l r) = next_id l + 1 /\ (1 <= length (history (push l r)))%nat.
Proof.
  destruct (push_cases l r) as [[Hlen ->]|[Hlen ->]]; unfold next_id; cbn [history vec_offset];
    rewrite ?length_drop, length_app in *; simpl in *;
    unfold MAX_HISTORY_LENGTH, HISTORY_REMOVAL_BATCH_SIZE in *; lia.
Qed.

Lemma ledger_reachable_wf l : ledger_reachable l -> ledger_wf l.
Proof.
  induction 1.
  - split; reflexivity.
  - by apply push_wf.
Qed.

Lemma get_none_iff usize_max l id :
  id <= usize_max ->
  get usize_max l id = None <-> id < vec_offset l \/ next_id l <= id.
Proof.
  intros Hle. unfold get, get_index, next_id.
  destruct (id <? vec_offset l) eqn:E1; simpl.
  - apply Z.ltb_lt in E1. split; [intros _; left; exact E1|reflexivity].
  - apply Z.ltb_ge in E1.
    destruct (usize_max <? id) eqn:E2; [apply Z.ltb_lt in E2; lia|]. simpl.
    rewrite lookup_ge_None. lia.
Qed.

Lemma get_above_usize usize_max l id : usize_max < id -> get usize_max l id = None.
Proof.
  intros Hlt. unfold get, get_index.
  rewrite (proj2 (Z.ltb_lt _ _) Hlt), orb_true_r. reflexivity.
Qed.

Lemma get_some_index usize_max l id x :
  ledger_wf l -> get usize_max l id = Some x -> index x = id.
Proof.
  rewrite ledger_wf_lookup. intros [Hoff H]. unfold get, get_index.
  destruct ((id <? vec_offset l) || (usize_max <? id)) eqn:E; simpl; [discriminate|].
  apply orb_false_iff in E as [E1 _]. apply Z.ltb_ge in E1.
  intros Hx. rewrite (H _ _ Hx). lia.
Qed.

Lemma ledger_pushes_spec n :
  ledger_reachable (ledger_pushes n) /\ next_id (ledger_pushes n) = Z.of_nat n /\
  (n <> 0 -> 1 <= length (history (ledger_pushes n)))%nat.
Proof.
  induction n as [|n (IHr & IHn & _)].
  - split; [constructor|]. split; [reflexivity|]. intros []; reflexivity.
  - cbn [ledger_pushes ledger_mint snd].
    destruct (push_next_id (ledger_pushes n) (TxRecord_mint 0 (len (ledger_pushes n)) "alice" "alice" 0))
      as [Hid Hlen].
    split; [apply ledger_reachable_push; [exact IHr|reflexivity]|].
    split; [rewrite Hid, IHn; lia|intros _; exact Hlen].
Qed.

(** X24: for a ledger whose record at physical position [i] has index
    [vec_offset + i], appending the record numbered [next_id]: when the
    history length would exceed [MAX_HISTORY + REMOVAL_BATCH]
    ([1_000_000 + 10_000]) the oldest [REMOVAL_BATCH] records are dropped
    in one batch, [vec_offset] grows by [REMOVAL_BATCH] and exactly the
    notification entries of indices [vec_offset .. vec_offset + REMOVAL_BATCH - 1]
    are removed (the new record's entry is added); otherwise the record is
    just appended; in both cases the index invariant still holds.  For
    [id <= usize::MAX], [get(id)] is [None] exactly when [id < vec_offset]
    or [id >= vec_offset + len], and a record [get] finds has index [id]. *)
Theorem ledger_push_and_get usize_max l r :
  ledger_wf l -> index r = next_id l ->
  (MAX_HISTORY_LENGTH + HISTORY_REMOVAL_BATCH_SIZE < Z.of_nat (length (history l)) + 1 ->
     history (push l r) = drop (Z.to_nat HISTORY_REMOVAL_BATCH_SIZE) (history l ++ [r]) /\
     vec_offset (push l r) = vec_offset l + HISTORY_REMOVAL_BATCH_SIZE /\
     forall id, notifications (push l r) !! id =
       if decide (vec_offset l <= id < vec_offset l + HISTORY_REMOVAL_BATCH_SIZE) then None
       else <[index r := None]> (notifications l) !! id) /\
  (Z.of_nat (length (history l)) + 1 <= MAX_HISTORY_LENGTH + HISTORY_REMOVAL_BATCH_SIZE ->
     push l r = mkLedger (history l ++ [r]) (vec_offset l)
                  (<[index r := None]> (notifications l))) /\
  (forall i x, history (push l r) !! i = Some x ->
     index x = vec_offset (push l r) + Z.of_nat i) /\
  (forall id, id <= usize_max ->
     get usize_max l id = None <-> id < vec_offset l \/ next_id l <= id) /\
  (forall id x, get usize_max l id = Some x -> index x = id).
Proof.
  intros Hwf Hr.
  pose proof (push_wf l r Hwf Hr) as Hwf'.
  pose proof Hwf as Hl. apply ledger_wf_lookup in Hl as [Hoff H].
  pose proof (snoc_indices l r H Hr) as Hh.
  split; [|split; [|split; [|split]]].
  - intros Hlen. destruct (push_cases l r) as [[_ ->]|[Hlen' _]];
      [|rewrite length_app in Hlen'; simpl in Hlen'; lia].
    cbn [history vec_offset notifications].
    split; [reflexivity|]. split; [reflexivity|].
    intros id. rewrite foldl_delete_lookup.
    pose proof (indices_take _ (vec_offset l) (Z.to_nat HISTORY_REMOVAL_BATCH_SIZE) id Hh)
      as Hiff.
    rewrite Z2Nat.id in Hiff by (unfold HISTORY_REMOVAL_BATCH_SIZE; lia).
    specialize (Hiff ltac:(rewrite length_app; simpl;
      unfold MAX_HISTORY_LENGTH, HISTORY_REMOVAL_BATCH_SIZE in *; lia)).
    destruct (decide (id ∈ _)) as [Hin|Hin];
      destruct (decide (vec_offset l <= id < _)) as [Hc|Hc]; try reflexivity; exfalso; tauto.
  - intros Hlen. destruct (push_cases l r) as [[Hlen' _]|[_ ->]]; [|reflexivity].
    rewrite length_app in Hlen'; simpl in Hlen'; lia.
  - apply ledger_wf_lookup in Hwf' as [_ H']. exact H'.
  - intros id. apply get_none_iff.
  - intros id x. apply get_some_index. exact Hwf.
Qed.

Lemma ledger_push_and_get_witness :
  ledger_wf (push (ledger_pushes 2) (TxRecord_mint 0 2 "alice" "alice" 0)) /\
  get USIZE_MAX_WASM32 (ledger_pushes 2) 2 = None.
Proof.
  assert (H1 : ledger_wf (ledger_pushes 2)) by (apply (bool_decide_unpack _); vm_compute; reflexivity).
  assert (H2 : index (TxRecord_mint 0 2 "alice" "alice" 0) = next_id (ledger_pushes 2))
    by (vm_compute; reflexivity).
  destruct (ledger_push_and_get USIZE_MAX_WASM32 _ _ H1 H2) as (_ & _ & Hidx & Hget & _).
  split.
  - apply ledger_wf_lookup. split; [vm_compute; discriminate|exact Hidx].
  - apply Hget; [unfold USIZE_MAX_WASM32; lia|]. right. vm_compute. discriminate.
Defined.

(* ------------------------------------------------------------------ *)
(** ** Pagination *)

Section Sortedness.
Context {A : Type} (R : relation A).

Lemma ssorted_rev (h : list A) :
  StronglySorted R h -> StronglySorted (flip R) (rev h).
Proof.
  induction h as [|x h IH]; simpl; [constructor|].
  rewrite StronglySorted_cons, Forall_forall. intros [Hx Hh].
  apply StronglySorted_app_2.
  - intros x1 x2 H1 H2. apply list_elem_of_singleton in H2 as ->.
    apply Hx. apply list_elem_of_In, in_rev, list_elem_of_In. exact H1.
  - by apply IH.
  - repeat constructor.
Qed.

Lemma ssorted_filter (P : A -> Prop) `{!forall x, Decision (P x)} (h : list A) :
  StronglySorted R h -> StronglySorted R (filter P h).
Proof.
  induction h as [|x h IH]; [constructor|].
  rewrite StronglySorted_cons. intros [Hx Hh]. rewrite filter_cons.
  case_decide; [|by apply IH].
  apply StronglySorted_cons. split; [|by apply IH].
  apply Forall_forall. intros y Hy. apply list_elem_of_filter in Hy as [_ Hy].
  rewrite Forall_forall in Hx. by apply Hx.
Qed.

Lemma ssorted_take n (h : list A) :
  StronglySorted R h -> StronglySorted R (take n h).
Proof.
  revert n. induction h as [|x h IH]; intros n; [by rewrite take_nil|].
  destruct n as [|n]; [constructor|]. simpl.
  rewrite !StronglySorted_cons. intros [Hx Hh].
  split; [by apply Forall_take|by apply IH].
Qed.
End Sortedness.

Lemma indices_sorted (h : list TxRecord) off :
  (forall i r, h !! i = Some r -> index r = off + Z.of_nat i) ->
  StronglySorted (fun x y => index x < index y) h.
Proof.
  revert off. induction h as [|x h IH]; intros off H; [constructor|].
  apply StronglySorted_cons. split.
  - apply Forall_lookup. intros i y Hy.
    rewrite (H 0%nat x eq_refl), (H (S i) y Hy). lia.
  - apply (IH (off + 1)). intros i y Hy. rewrite (H (S i) y Hy). lia.
Qed.

Lemma ledger_get_transactions_spec l who c tid :
  ledger_get_transactions l who c tid =
    Some (mkPaginatedResult (take c (filtered_history l who tid))
            (index <$> filtered_history l who tid !! c)).
Proof.
  unfold ledger_get_transactions. fold (filtered_history l who tid).
  set (F := filtered_history l who tid).
  rewrite length_take.
  destruct (Nat.eqb (Nat.min (c + 1) (length F)) (c + 1)) eqn:E.
  - apply Nat.eqb_eq in E.
    destruct (lookup_lt_is_Some_2 F c) as [x Hx]; [lia|].
    unfold vec_remove. rewrite lookup_take_lt by lia. rewrite Hx. simpl.
    rewrite take_take, drop_ge by (rewrite length_take; lia).
    rewrite app_nil_r. replace (Nat.min c (c + 1)) with c by lia. reflexivity.
  - apply Nat.eqb_neq in E.
    rewrite !take_ge by lia.
    rewrite (lookup_ge_None_2 F c) by lia. reflexivity.
Qed.

Lemma filter_forall_id {A} (P : A -> Prop) `{!forall x, Decision (P x)} (h : list A) :
  (forall x, P x) -> filter P h = h.
Proof.
  intros HP. induction h as [|x h IH]; [reflexivity|].
  rewrite filter_cons_True by apply HP. by rewrite IH.
Qed.

(** C5 (violated by the code): after [2^32 + 1] records the ledger
    retains the record numbered [2^32] (its newest one, which
    [get_transactions(None, 1, None)] lists), yet [get(2^32)] is [None]
    on the wasm32 canister: [get_index] compares [id] itself, not the
    offset [id - vec_offset] it casts, with [usize::MAX = 2^32 - 1]. *)
Theorem ledger_get_misses_retained_record :
  ledger_reachable (ledger_pushes (Z.to_nat (2 ^ 32 + 1))) /\
  vec_offset (ledger_pushes (Z.to_nat (2 ^ 32 + 1))) <= 2 ^ 32 <
    next_id (ledger_pushes (Z.to_nat (2 ^ 32 + 1))) /\
  (exists x p, index x = 2 ^ 32 /\
     get_transactions (ledger_pushes (Z.to_nat (2 ^ 32 + 1))) None 1 None = Some p /\
     result p = [x]) /\
  get USIZE_MAX_WASM32 (ledger_pushes (Z.to_nat (2 ^ 32 + 1))) (2 ^ 32) = None.
Proof.
  assert (HN : Z.of_nat (Z.to_nat (2 ^ 32 + 1)) = 2 ^ 32 + 1) by (apply Z2Nat.id; discriminate).
  assert (Hnz : Z.to_nat (2 ^ 32 + 1) <> 0%nat).
  { intros H0. rewrite H0 in HN. discriminate. }
  destruct (ledger_pushes_spec (Z.to_nat (2 ^ 32 + 1))) as (Hr & Hid & Hlen).
  specialize (Hlen Hnz).
  generalize dependent (ledger_pushes (Z.to_nat (2 ^ 32 + 1))). intros l Hr Hid Hlen.
  rewrite HN in Hid.
  pose proof (ledger_reachable_wf l Hr) as Hwf. apply ledger_wf_lookup in Hwf as [_ H].
  destruct (exists_last (l := history l)) as [h' [x Hh]];
    [intros E; rewrite E in Hlen; simpl in Hlen; lia|].
  assert (Hx : index x = 2 ^ 32).
  { rewrite (H (length h') x) by (rewrite Hh; by apply list_lookup_middle).
    unfold next_id in Hid. rewrite Hh, length_app in Hid. simpl in Hid. lia. }
  split; [exact Hr|]. split; [|split].
  - unfold next_id in *. lia.
  - exists x. eexists. split; [exact Hx|]. split.
    + unfold get_transactions. rewrite ledger_get_transactions_spec. reflexivity.
    + cbn [result]. unfold filtered_history.
      rewrite !(filter_forall_id _ (rev (history l))) by (intros ?; reflexivity).
      rewrite Hh, rev_unit. reflexivity.
  - apply get_above_usize. unfold USIZE_MAX_WASM32. lia.
Qed.

(** C6 (amended): with [c = min(count, 1000)] (the cap applied by
    [TokenCanisterAPI::get_transactions]) and [F] the history newest first
    restricted to records involving [who] (when given) with index at most
    [start] (when given), [get_transactions(who, count, start)] returns the
    first [c] records of [F] and, as [next], the index of the [(c+1)]-th
    record of [F] if there is one and [None] otherwise; so the result has at
    most [c] records, exactly [c] when [next] is [Some], each of them a
    record of the history passing both filters, and (for a ledger whose
    record at position [i] has index [vec_offset + i]) their indices
    strictly decrease. *)
Theorem get_transactions_pages l who count tid :
  ledger_wf l ->
  let c := Nat.min count MAX_TRANSACTION_QUERY_LEN in
  let F := filtered_history l who tid in
  exists res, get_transactions l who count tid = Some res /\
    result res = take c F /\ next res = index <$> F !! c /\
    (length (result res) <= c)%nat /\
    (next res <> None -> length (result res) = c) /\
    (forall x, x ∈ result res ->
       who_filter who x = true /\ id_filter tid x = true /\ x ∈ history l) /\
    StronglySorted (fun x y => index y < index x) (result res).
Proof.
  intros Hwf c F. unfold get_transactions. rewrite ledger_get_transactions_spec.
  eexists. split; [reflexivity|]. cbn [result next]. fold c F.
  split; [reflexivity|]. split; [reflexivity|].
  split; [rewrite length_take; lia|].
  split.
  - intros Hn. destruct (F !! c) as [x|] eqn:Hx; [|contradiction].
    apply lookup_lt_Some in Hx. rewrite length_take. lia.
  - split.
    + intros x Hx. apply list_elem_of_lookup in Hx as [i Hi].
      apply lookup_take_Some in Hi as [Hi _]. apply list_elem_of_lookup_2 in Hi.
      unfold F, filtered_history in Hi.
      apply list_elem_of_filter in Hi as [Hid Hi].
      apply list_elem_of_filter in Hi as [Hwho Hi].
      split; [exact Hwho|]. split; [exact Hid|].
      apply list_elem_of_In, in_rev, list_elem_of_In. exact Hi.
    + apply ssorted_take. unfold F, filtered_history.
      apply ssorted_filter, ssorted_filter.
      apply ledger_wf_lookup in Hwf as [_ H].
      exact (ssorted_rev _ _ (indices_sorted _ _ H)).
Qed.

Lemma get_transactions_pages_witness :
  exists res, get_transactions (ledger_pushes 3) None 2 None = Some res /\
    length (result res) = 2%nat /\ next res = Some 0.
Proof.
  assert (H : ledger_wf (ledger_pushes 3)) by (apply (bool_decide_unpack _); vm_compute; reflexivity).
  destruct (get_transactions_pages (ledger_pushes 3) None 2 None H)
    as (res & Hres & _ & Hnext & _ & Hlen & _).
  exists res. split; [exact Hres|].
  assert (Hn : next res = Some 0) by (rewrite Hnext; vm_compute; reflexivity).
  split; [apply Hlen; rewrite Hn; discriminate|exact Hn].
Defined.

(** C6 counterexample: on a ledger of 1001 records, [get_transactions(None,
    1001, None)] returns 1000 records and [next = Some 0], although no
    1002nd record exists. *)
Lemma get_transactions_cap_counterexample :
  length (filtered_history (ledger_pushes 1001) None None) = 1001%nat /\
  match get_transactions (ledger_pushes 1001) None 1001 None with
  | Some res => length (result res) = 1000%nat /\ next res = Some 0
  | None => False
  end.
Proof. split; vm_compute; [reflexivity|split; reflexivity]. Qed.

(* ------------------------------------------------------------------ *)
(** ** Fee split *)

(** C7: with [k = (fee_ratio * 10^12) as u128] in [[0, 10^12]] (a fee
    ratio in [[0, 1]]) and a nonzero fee [f] the payer can afford,
    [charge_fee] succeeds, its auction part is [f * k / 10^12] (truncating),
    between [0] and [f]; it takes [f] from the payer, credits
    [AUCTION_PRINCIPAL] with the auction part and [fee_to] with the rest;
    when [fee_to], the payer and [AUCTION_PRINCIPAL] are pairwise distinct,
    [balance_of(AUCTION_PRINCIPAL) + balance_of(fee_to)] grows by exactly
    [f] and the payer loses exactly [f].  (The payer of [transfer],
    [transfer_from] and [approve] is a caller, or an owner who approved a
    caller, so never the management canister [AUCTION_PRINCIPAL].) *)
Theorem charge_fee_split b payer fee_to f k :
  balances_wf b -> 0 < f <= balance_of b payer -> 0 <= k <= INT_CONVERSION_K ->
  exists b', charge_fee b payer fee_to f k = Some (b', Ok tt) /\
    auction_part f k = f * k / 10 ^ 12 /\ 0 <= auction_part f k <= f /\
    (forall x, balance_of b' x =
       balance_of b x - ind payer x f + ind fee_to x (f - auction_part f k)
       + ind auction_principal x (auction_part f k)) /\
    (fee_to <> payer -> fee_to <> auction_principal -> payer <> auction_principal ->
     balance_of b' auction_principal + balance_of b' fee_to
       = balance_of b auction_principal + balance_of b fee_to + f /\
     balance_of b' payer = balance_of b payer - f).
Proof.
  intros Hwf [Hpos Hle] Hk.
  destruct (charge_fee_ok b payer fee_to f k Hwf) as (b' & Hb' & _ & Hbal); [lia|lia|exact Hk|].
  pose proof (auction_part_bounds f k ltac:(lia) Hk) as Hap.
  exists b'. split; [exact Hb'|]. split; [reflexivity|]. split; [exact Hap|].
  split; [exact Hbal|].
  intros H1 H2 H3. rewrite !Hbal. unfold ind.
  repeat case_decide; subst; try congruence; lia.
Qed.

Lemma charge_fee_split_witness :
  exists b', charge_fee (balances (init 0 md_fee_john)) "alice" "john" 10 (5 * 10 ^ 11)
               = Some (b', Ok tt) /\
    balance_of b' auction_principal = 5 /\ balance_of b' "john" = 5 /\
    balance_of b' "alice" = 990.
Proof.
  assert (H1 : balances_wf (balances (init 0 md_fee_john))) by wf_eval.
  assert (H2 : 0 < 10 <= balance_of (balances (init 0 md_fee_john)) "alice")
    by (vm_compute; split; [reflexivity|discriminate]).
  assert (H3 : 0 <= 5 * 10 ^ 11 <= INT_CONVERSION_K) by tokens_bound.
  destruct (charge_fee_split _ "alice" "john" 10 (5 * 10 ^ 11) H1 H2 H3)
    as (b' & Hb' & _ & _ & Hbal & _).
  exists b'. split; [exact Hb'|].
  rewrite !Hbal. vm_compute. split; [reflexivity|split; reflexivity].
Defined.

(* ------------------------------------------------------------------ *)
(** ** Auction settlement *)

Lemma div_add_le a b c : 0 < c -> a / c + b / c <= (a + b) / c.
Proof.
  intros Hc. apply Z.div_le_lower_bound; [exact Hc|].
  pose proof (Z.mul_div_le a c Hc). pose proof (Z.mul_div_le b c Hc). lia.
Qed.

Lemma share_bounds T C c : 0 < C -> 0 <= T -> 0 <= c <= C -> 0 <= share T C c <= T.
Proof.
  intros HC HT Hc. unfold share. split.
  - apply Z.div_pos; [nia|exact HC].
  - apply Z.div_le_upper_bound; [exact HC|]. nia.
Qed.

Lemma total_shares_le T C bs :
  0 < C -> 0 <= T -> Forall (fun pc => 0 <= pc.2) bs ->
  0 <= total_shares T C bs <= T * total_bid_cycles bs / C.
Proof.
  intros HC HT. induction bs as [|[p c] bs IH]; intros Hbs.
  - simpl. rewrite Z.mul_0_r, Z.div_0_l by lia. lia.
  - apply Forall_cons in Hbs as [Hc Hbs]. simpl in Hc.
    specialize (IH Hbs).
    assert (E1 : total_shares T C ((p, c) :: bs) = share T C c + total_shares T C bs)
      by reflexivity.
    assert (E2 : total_bid_cycles ((p, c) :: bs) = c + total_bid_cycles bs) by reflexivity.
    rewrite E1, E2.
    pose proof (div_add_le (T * c) (T * total_bid_cycles bs) C HC).
    assert (0 <= share T C c) by (apply Z.div_pos; [nia|exact HC]).
    unfold share in *. rewrite Z.mul_add_distr_l. lia.
Qed.

Lemma total_shares_le_pool T C bs :
  0 < C -> 0 <= T -> Forall (fun pc => 0 <= pc.2) bs -> total_bid_cycles bs <= C ->
  0 <= total_shares T C bs <= T.
Proof.
  intros HC HT Hbs Hsum.
  pose proof (total_shares_le T C bs HC HT Hbs) as [H0 H1].
  split; [exact H0|].
  transitivity (T * total_bid_cycles bs / C); [exact H1|].
  transitivity (T * C / C); [apply Z.div_le_mono; [exact HC|nia]|].
  rewrite Z.div_mul by lia. lia.
Qed.

Section DisburseLoop.
Variables (now T C : Z).
Hypotheses (HC : 0 < C) (HT : 0 <= T <= MAX128).

Lemma disburse_loop_ok bs b l t :
  balances_wf b ->
  Forall (fun pc => pc.1 <> auction_principal /\ 0 <= pc.2) bs ->
  total_shares T C bs <= balance_of b auction_principal ->
  0 <= t -> t + total_shares T C bs <= MAX128 ->
  exists b', disburse_loop now T C bs b l t
               = Some (b', record_auctions now l T C bs, t + total_shares T C bs) /\
    balances_wf b' /\
    forall x, balance_of b' x = balance_of b x + bidder_share T C bs x
                                - ind auction_principal x (total_shares T C bs).
Proof.
  revert b l t. induction bs as [|[p c] bs IH]; intros b l t Hwf Hbs Hpool Ht Hmax.
  - exists b. simpl. rewrite Z.add_0_r. split; [reflexivity|]. split; [exact Hwf|].
    intros x. unfold ind. case_decide; lia.
  - apply Forall_cons in Hbs as [[Hp Hc] Hbs]. simpl in Hp, Hc.
    assert (Hnn : Forall (fun pc => 0 <= pc.2) bs)
      by (eapply Forall_impl; [exact Hbs|]; intros ? []; assumption).
    set (s := share T C c).
    assert (Hs : 0 <= s) by (apply Z.div_pos; [nia|exact HC]).
    pose proof (total_shares_le T C bs HC ltac:(lia) Hnn) as [Hrest _].
    assert (Hts : total_shares T C ((p, c) :: bs) = s + total_shares T C bs) by reflexivity.
    rewrite Hts in Hpool, Hmax.
    pose proof Hwf as Hwf'. destruct Hwf as [Hpos Hsum].
    pose proof (balance_le_sum b auction_principal Hpos) as Hle.
    cbn [disburse_loop].
    rewrite (proj2 (Z.eqb_neq C 0) ltac:(lia)).
    unfold to_tokens128. fold s. rewrite (proj2 (Z.leb_le s MAX128) ltac:(lia)).
    destruct (transfer_balance_ok_exists b auction_principal p s Hwf') as [b1 Hb1]; [lia|lia|].
    rewrite Hb1.
    pose proof (transfer_balance_wf b auction_principal p s b1 tt Hwf' ltac:(lia) Hb1) as Hwf1.
    pose proof (transfer_balance_ok_balance _ _ _ _ _ _ Hb1) as Hbal1.
    unfold tokens_add. rewrite (proj2 (Z.leb_le (t + s) MAX128) ltac:(lia)).
    destruct (IH b1 (record_auction now l p s) (t + s) Hwf1 Hbs) as (b2 & Hb2 & Hwf2 & Hbal2).
    { rewrite Hbal1. unfold ind. repeat case_decide; try congruence; lia. }
    { lia. }
    { lia. }
    exists b2. rewrite Hb2. split.
    + rewrite Hts, Z.add_assoc. reflexivity.
    + split; [exact Hwf2|]. intros x. rewrite Hbal2, Hbal1, Hts.
      cbn [bidder_share foldr fst snd]. fold (bidder_share T C bs x). fold s.
      unfold ind. repeat case_decide; subst; try congruence; lia.
Qed.
End DisburseLoop.

Lemma bidder_share_nodup T C bs x :
  NoDup bs.*1 ->
  (forall c, (x, c) ∈ bs -> bidder_share T C bs x = share T C c) /\
  (x ∉ bs.*1 -> bidder_share T C bs x = 0).
Proof.
  induction bs as [|[p c0] bs IH]; intros Hnd.
  - split; [intros c Hc; inversion Hc|reflexivity].
  - simpl in Hnd. apply NoDup_cons in Hnd as [Hp Hnd]. specialize (IH Hnd) as [IH1 IH2].
    cbn [bidder_share foldr fst snd]. fold (bidder_share T C bs x).
    split.
    + intros c Hc. apply elem_of_cons in Hc as [Heq|Hc].
      * injection Heq as -> ->. rewrite decide_True by reflexivity.
        rewrite IH2 by exact Hp. lia.
      * assert (Hx : x ∈ bs.*1) by (apply (list_elem_of_fmap_2 fst) in Hc; exact Hc).
        rewrite decide_False by (intros ->; contradiction).
        rewrite (IH1 c Hc). lia.
    + intros Hx. simpl in Hx. rewrite elem_of_cons in Hx.
      rewrite decide_False by (intros ->; tauto).
      rewrite IH2 by tauto. reflexivity.
Qed.

Lemma bidder_share_map T C (bids : gmap Principal Z) x :
  bidder_share T C (map_to_list bids) x = default 0 (share T C <$> bids !! x).
Proof.
  destruct (bidder_share_nodup T C (map_to_list bids) x (NoDup_fst_map_to_list bids))
    as [H1 H2].
  destruct (bids !! x) as [c|] eqn:Hx; simpl.
  - apply H1. by apply elem_of_map_to_list.
  - apply H2. intros Hin. apply list_elem_of_fmap in Hin as ([y c] & Hy & Hin).
    simpl in Hy. subst y. apply elem_of_map_to_list in Hin. congruence.
Qed.

Lemma record_auctions_next_id now l T C bs :
  next_id (record_auctions now l T C bs) = next_id l + Z.of_nat (length bs).
Proof.
  revert l. induction bs as [|pc bs IH]; intros l; simpl; [lia|].
  rewrite IH. unfold record_auction.
  rewrite (proj1 (push_next_id l _)). lia.
Qed.

(** C8: let [pool = balance_of(AUCTION_PRINCIPAL)] and [C] the cycles
    collected since the last auction, with [C > 0], every bid nonnegative,
    no bid by [AUCTION_PRINCIPAL] and the bids summing to at most [C] (as
    [ic_auction] keeps them).  Then the settlement succeeds; each bidder
    with [c] cycles receives exactly [pool * c / C] (floor) from
    [AUCTION_PRINCIPAL]; other accounts are unchanged; the distributed
    total is the sum of the shares, between [0] and [pool];
    [AUCTION_PRINCIPAL] keeps [pool] minus that total (the flooring dust);
    one [Auction] record per bidder is appended, in loop order. *)
Theorem disburse_rewards_shares now st bidding n :
  balances_wf (balances st) ->
  0 < cycles_since_auction bidding ->
  map_Forall (fun p c => p <> auction_principal /\ 0 <= c) (bids bidding) ->
  total_bid_cycles (map_to_list (bids bidding)) <= cycles_since_auction bidding ->
  let pool := balance_of (balances st) auction_principal in
  let C := cycles_since_auction bidding in
  let bs := map_to_list (bids bidding) in
  exists st' info, disburse_rewards now st bidding n = Some (st', info) /\
    (forall p c, bids bidding !! p = Some c ->
       balance_of (balances st') p = balance_of (balances st) p + pool * c / C) /\
    (forall x, x <> auction_principal -> bids bidding !! x = None ->
       balance_of (balances st') x = balance_of (balances st) x) /\
    tokens_distributed info = total_shares pool C bs /\
    0 <= tokens_distributed info <= pool /\
    balance_of (balances st') auction_principal = pool - tokens_distributed info /\
    ledger st' = record_auctions now (ledger st) pool C bs /\
    next_id (ledger st') = next_id (ledger st) + Z.of_nat (size (bids bidding)).
Proof.
  intros Hwf HC Hbids Hcyc pool C bs.
  pose proof Hwf as [Hpos Hsum].
  assert (HT : 0 <= pool <= MAX128).
  { pose proof (balance_of_nonneg _ auction_principal Hpos).
    pose proof (balance_le_sum _ auction_principal Hpos). unfold pool. lia. }
  assert (Hbs : Forall (fun pc => pc.1 <> auction_principal /\ 0 <= pc.2) bs).
  { apply map_Forall_to_list in Hbids. eapply Forall_impl; [exact Hbids|].
    intros [p c]. simpl. tauto. }
  assert (Hnn : Forall (fun pc => 0 <= pc.2) bs)
    by (eapply Forall_impl; [exact Hbs|]; intros ? []; assumption).
  pose proof (total_shares_le_pool pool C bs HC ltac:(lia) Hnn Hcyc) as Htot.
  destruct (disburse_loop_ok now pool C HC HT bs (balances st) (ledger st) 0 Hwf Hbs)
    as (b' & Hl & _ & Hbal); [lia|lia|lia|].
  assert (HAUC : bids bidding !! auction_principal = None).
  { destruct (bids bidding !! auction_principal) as [c|] eqn:E; [|reflexivity].
    exfalso. destruct (Hbids _ _ E) as [Hne _]. apply Hne. reflexivity. }
  unfold disburse_rewards. fold C bs.
  change (accumulated_fees (balances st)) with pool. rewrite Hl. simpl.
  eexists _, _. split; [reflexivity|]. cbn [balances ledger tokens_distributed].
  split; [|split; [|split; [|split; [|split; [|split]]]]].
  - intros p c Hp. rewrite Hbal. unfold bs. rewrite bidder_share_map, Hp. simpl.
    destruct (Hbids _ _ Hp) as [Hne _]. unfold ind. rewrite decide_False by congruence.
    unfold share. lia.
  - intros x Hx Hnone. rewrite Hbal. unfold bs. rewrite bidder_share_map, Hnone. simpl.
    unfold ind. rewrite decide_False by congruence. lia.
  - lia.
  - lia.
  - rewrite Hbal. unfold bs. rewrite bidder_share_map, HAUC. simpl.
    unfold ind. rewrite decide_True by reflexivity. fold pool. lia.
  - reflexivity.
  - rewrite record_auctions_next_id. unfold bs. rewrite length_map_to_list. reflexivity.
Qed.

Lemma disburse_rewards_shares_witness :
  exists st' info, disburse_rewards 0 st_after_fee bidding_example 0 = Some (st', info) /\
    tokens_distributed info = 4 /\ balance_of (balances st') auction_principal = 1 /\
    balance_of (balances st') "bob" = 103.
Proof.
  assert (H1 : balances_wf (balances st_after_fee)) by wf_eval.
  assert (H2 : 0 < cycles_since_auction bidding_example) by (vm_compute; reflexivity).
  assert (H3 : map_Forall (fun p c => p <> auction_principal /\ 0 <= c) (bids bidding_example))
    by wf_eval.
  assert (H4 : total_bid_cycles (map_to_list (bids bidding_example))
               <= cycles_since_auction bidding_example) by (vm_compute; discriminate).
  destruct (disburse_rewards_shares 0 st_after_fee bidding_example 0 H1 H2 H3 H4)
    as (st' & info & Hd & Hbid & _ & Htd & _ & Hauc & _).
  exists st', info. split; [exact Hd|].
  assert (Htd' : tokens_distributed info = 4) by (rewrite Htd; vm_compute; reflexivity).
  split; [exact Htd'|]. split.
  - rewrite Hauc, Htd'. vm_compute. reflexivity.
  - rewrite (Hbid "bob" 2000 ltac:(vm_compute; reflexivity)). vm_compute. reflexivity.
Defined.

(* ------------------------------------------------------------------ *)
(** ** Approving zero *)

Lemma approve_zero_shape now st caller p k st' id :
  approve now st caller p 0 k = Some (st', Ok id) ->
  allowance st' caller p = StatsData.fee (stats st) /\
  (StatsData.fee (stats st) = 0 ->
   match allowances st' !! caller with
   | Some inner => inner !! p = None /\ inner <> ∅
   | None => True
   end).
Proof.
  unfold approve, ledger_approve. simpl. intros H.
  destruct (balance_of (balances st) caller <? StatsData.fee (stats st)); [discriminate|].
  destruct (charge_fee _ _ _ _ _) as [[b1 [[]|e]]|]; [|discriminate|discriminate].
  unfold tokens_add in H.
  destruct (0 + StatsData.fee (stats st) <=? MAX128); [|discriminate].
  injection H as <- <-. unfold allowance. cbn [allowances].
  destruct (0 + StatsData.fee (stats st) =? 0) eqn:Hz.
  - apply Z.eqb_eq in Hz.
    destruct (allowances st !! caller) as [inner|] eqn:Hc.
    + case_decide as Hemp.
      * rewrite lookup_delete_eq. split; [lia|done].
      * rewrite lookup_insert_eq, lookup_delete_eq. split; [lia|].
        intros _. split; [reflexivity|exact Hemp].
    + rewrite Hc. split; [lia|done].
  - apply Z.eqb_neq in Hz.
    rewrite !lookup_insert_eq. split; [lia|]. intros. lia.
Qed.

Lemma approve_zero_success now st caller p k :
  balances_wf (balances st) -> is_tokens (StatsData.fee (stats st)) ->
  StatsData.fee (stats st) <= balance_of (balances st) caller ->
  0 <= k <= INT_CONVERSION_K ->
  exists st', approve now st caller p 0 k = Some (st', Ok (next_id (ledger st))).
Proof.
  intros Hwf Hf Hle Hk. unfold approve, ledger_approve. simpl.
  rewrite (proj2 (Z.ltb_ge _ _) Hle).
  destruct (charge_fee_ok (balances st) caller (StatsData.fee_to (stats st))
              (StatsData.fee (stats st)) k Hwf) as (b1 & Hb1 & _);
    [unfold is_tokens in Hf; lia|exact Hle|exact Hk|].
  rewrite Hb1. unfold tokens_add.
  rewrite (proj2 (Z.leb_le (0 + StatsData.fee (stats st)) MAX128) ltac:(unfold is_tokens in Hf; lia)).
  eexists. reflexivity.
Qed.

(** C9 (amended): for [caller <> p], a state with well-formed balances, a
    [Tokens128] fee the caller can afford and a fee ratio in [[0, 1]],
    [approve(p, 0)] succeeds; after any successful [approve(p, 0)],
    [allowance(caller, p)] is the fee (so zero only when the fee is zero);
    when the fee is zero the [(caller, p)] entry is absent and [caller] has
    no empty inner map (its outer entry is removed if [p] was its only
    spender). *)
Theorem approve_zero_allowance now st caller p k :
  caller <> p -> balances_wf (balances st) -> is_tokens (StatsData.fee (stats st)) ->
  0 <= k <= INT_CONVERSION_K ->
  (StatsData.fee (stats st) <= balance_of (balances st) caller ->
   exists st', approve now st caller p 0 k = Some (st', Ok (next_id (ledger st)))) /\
  (forall st' id, approve now st caller p 0 k = Some (st', Ok id) ->
   allowance st' caller p = StatsData.fee (stats st) /\
   (StatsData.fee (stats st) = 0 ->
    match allowances st' !! caller with
    | Some inner => inner !! p = None /\ inner <> ∅
    | None => True
    end)).
Proof.
  intros _ Hwf Hf Hk. split.
  - intros Hle. by apply approve_zero_success.
  - intros st' id. apply approve_zero_shape.
Qed.

Lemma approve_zero_allowance_witness :
  exists st', approve 0 st_approved "alice" "bob" 0 0
                = Some (st', Ok (next_id (ledger st_approved))) /\
    allowance st' "alice" "bob" = 10.
Proof.
  assert (H1 : "alice" <> "bob") by discriminate.
  assert (H2 : balances_wf (balances st_approved)) by wf_eval.
  assert (H3 : is_tokens (StatsData.fee (stats st_approved))) by (vm_compute; split; discriminate).
  assert (H4 : 0 <= 0 <= INT_CONVERSION_K) by tokens_bound.
  destruct (approve_zero_allowance 0 st_approved "alice" "bob" 0 H1 H2 H3 H4) as [Hex Hshape].
  destruct Hex as [st' Hst]; [vm_compute; discriminate|].
  exists st'. split; [exact Hst|].
  destruct (Hshape st' _ Hst) as [Hal _]. rewrite Hal. vm_compute. reflexivity.
Defined.

(** C9 counterexample: with fee 10, Alice's [approve(bob, 0)] leaves
    [allowance(alice, bob) = 10], not zero. *)
Lemma approve_zero_fee_counterexample :
  match approve 0 (init 0 md_fee_john) "alice" "bob" 0 0 with
  | Some (st', Ok _) => allowance st' "alice" "bob" = 10
  | _ => False
  end.
Proof. vm_compute. reflexivity. Qed.

(* ------------------------------------------------------------------ *)
(** ** Holders *)

Lemma length_insert_desc x xs : length (insert_desc x xs) = S (length xs).
Proof.
  induction xs as [|y xs IH]; simpl; [reflexivity|].
  destruct (y.2 <? x.2); simpl; [reflexivity|]. by rewrite IH.
Qed.

Lemma length_sort_desc xs : length (sort_desc xs) = length xs.
Proof.
  unfold sort_desc.
  assert (H : forall acc, length (foldl (fun acc x => insert_desc x acc) acc xs)
                          = (length acc + length xs)%nat).
  { induction xs as [|x xs IH]; intros acc; simpl; [lia|].
    rewrite IH, length_insert_desc. lia. }
  rewrite H. reflexivity.
Qed.

(** C10: [get_holders(start, limit)] traps ([None]) whenever [start]
    exceeds the number of holders, since then [end = min(start + limit, len)]
    is below [start]; for [start] at most the number of holders and
    [start + limit] not wrapping around [usize], it returns a list. *)
Theorem get_holders_start_past_end usize_bits b start limit :
  0 <= start -> 0 <= limit ->
  (Z.of_nat (size b) < start -> get_holders usize_bits b start limit = None) /\
  (start <= Z.of_nat (size b) -> start + limit < 2 ^ usize_bits ->
   is_Some (get_holders usize_bits b start limit)).
Proof.
  intros Hs Hl. unfold get_holders, slice.
  rewrite length_sort_desc, length_map_to_list. split.
  - intros Hlt.
    destruct (start <=? Z.min ((start + limit) mod 2 ^ usize_bits) (Z.of_nat (size b))) eqn:E;
      [apply Z.leb_le in E; lia|reflexivity].
  - intros Hle Hw. rewrite Z.mod_small by lia.
    destruct (start <=? Z.min (start + limit) (Z.of_nat (size b))) eqn:E1;
      [|apply Z.leb_gt in E1; lia].
    destruct (Z.min (start + limit) (Z.of_nat (size b)) <=? Z.of_nat (size b)) eqn:E2;
      [|apply Z.leb_gt in E2; lia].
    eexists. reflexivity.
Qed.

Lemma get_holders_start_past_end_witness :
  get_holders 32 (balances (init 0 md_alice)) 2 5 = None /\
  is_Some (get_holders 32 (balances (init 0 md_alice)) 1 5).
Proof.
  destruct (get_holders_start_past_end 32 (balances (init 0 md_alice)) 2 5
              ltac:(lia) ltac:(lia)) as [H1 _].
  destruct (get_holders_start_past_end 32 (balances (init 0 md_alice)) 1 5
              ltac:(lia) ltac:(lia)) as [_ H2].
  split.
  - apply H1. vm_compute. reflexivity.
  - apply H2; [vm_compute; discriminate|vm_compute; reflexivity].
Defined.

(* ------------------------------------------------------------------ *)
(** ** Further properties of the token operations, queries and ledger *)

(* ------------------------------------------------------------------ *)
(** ** transfer_balance: outcomes, self-transfer, positivity *)

(** X1: [transfer_balance] with a nonzero amount above the sender's balance
    returns [InsufficientBalance] and changes nothing; otherwise it
    succeeds, moving exactly [amount] from [from] to [to]. *)
Theorem transfer_balance_outcomes b from to a :
  balances_wf b -> 0 <= a ->
  (a <> 0 -> balance_of b from < a ->
     transfer_balance b from to a = Some (b, Err InsufficientBalance)) /\
  ((a = 0 \/ a <= balance_of b from) ->
     exists b', transfer_balance b from to a = Some (b', Ok tt) /\ balances_wf b' /\
       forall x, balance_of b' x = balance_of b x - ind from x a + ind to x a).
Proof.
  intros Hwf Ha. split.
  - intros Ha0 Hlt. unfold transfer_balance, tokens_sub.
    rewrite (proj2 (Z.eqb_neq a 0) Ha0).
    unfold balance_of in Hlt. destruct (b !! from) as [fb|]; simpl in Hlt; [|reflexivity].
    rewrite (proj2 (Z.leb_gt a fb) Hlt). reflexivity.
  - intros Hle.
    destruct (transfer_balance_ok_exists b from to a Hwf Ha) as [b' Hb'].
    { destruct Hle as [->|Hle]; [apply balance_of_nonneg, Hwf|exact Hle]. }
    exists b'. split; [exact Hb'|]. split.
    + exact (transfer_balance_wf b from to a b' tt Hwf Ha Hb').
    + exact (transfer_balance_ok_balance _ _ _ _ _ _ Hb').
Qed.

Lemma transfer_balance_outcomes_witness :
  transfer_balance holders_example "bob" "dave" 600
    = Some (holders_example, Err InsufficientBalance) /\
  exists b', transfer_balance holders_example "bob" "dave" 300 = Some (b', Ok tt) /\
    balance_of b' "bob" = 200 /\ balance_of b' "dave" = 300.
Proof.
  assert (Hwf : balances_wf holders_example) by wf_eval.
  destruct (transfer_balance_outcomes holders_example "bob" "dave" 600 Hwf ltac:(lia)) as [H1 _].
  destruct (transfer_balance_outcomes holders_example "bob" "dave" 300 Hwf ltac:(lia))
    as [_ H2].
  split; [apply H1; [lia|vm_compute; reflexivity]|].
  destruct H2 as (b' & Hb' & _ & Hbal); [right; vm_compute; discriminate|].
  exists b'. split; [exact Hb'|]. rewrite !Hbal. vm_compute. split; reflexivity.
Defined.

(** X2: a transfer from an account to itself never changes the balances:
    it returns [Ok] when the amount is zero or covered by the balance, and
    [InsufficientBalance] otherwise. *)
Theorem transfer_balance_to_self b p a :
  balances_wf b -> 0 <= a ->
  transfer_balance b p p a =
    Some (b, if (a =? 0) || (a <=? balance_of b p) then Ok tt else Err InsufficientBalance).
Proof.
  intros [Hpos Hsum] Ha. unfold transfer_balance, tokens_sub, tokens_add.
  destruct (a =? 0) eqn:Ha0; [reflexivity|]. apply Z.eqb_neq in Ha0. simpl.
  pose proof (balance_le_sum b p Hpos) as Hle.
  unfold balance_of in *. destruct (b !! p) as [fb|] eqn:Hf; simpl in *.
  - destruct (a <=? fb) eqn:Hafb; [|reflexivity]. apply Z.leb_le in Hafb.
    rewrite lookup_insert_eq. simpl.
    replace (fb - a + a) with fb by lia.
    rewrite (proj2 (Z.leb_le fb MAX128)) by lia.
    rewrite lookup_insert_eq.
    rewrite (proj2 (Z.eqb_neq fb 0)) by lia.
    rewrite insert_insert_eq, insert_id by exact Hf. reflexivity.
  - rewrite (proj2 (Z.leb_gt a 0)) by lia. reflexivity.
Qed.

Lemma transfer_balance_to_self_witness :
  transfer_balance holders_example "bob" "bob" 300 = Some (holders_example, Ok tt) /\
  transfer_balance holders_example "bob" "bob" 600
    = Some (holders_example, Err InsufficientBalance).
Proof.
  assert (Hwf : balances_wf holders_example) by wf_eval.
  rewrite (transfer_balance_to_self holders_example "bob" 300 Hwf ltac:(lia)).
  rewrite (transfer_balance_to_self holders_example "bob" 600 Hwf ltac:(lia)).
  vm_compute. split; reflexivity.
Defined.

Lemma transfer_balance_positive b from to a b' r :
  transfer_balance b from to a = Some (b', r) ->
  balances_positive b -> 0 <= a -> balances_positive b'.
Proof.
  intros Htb Hpos Ha. destruct r as [u|e]; [|apply transfer_balance_err in Htb; by subst].
  revert Htb. unfold transfer_balance, tokens_sub, tokens_add.
  destruct (a =? 0) eqn:Ha0; [intros [= <- _]; exact Hpos|]. apply Z.eqb_neq in Ha0.
  destruct (b !! from) as [fb|] eqn:Hf; [|discriminate].
  destruct (a <=? fb) eqn:Hle; [|discriminate]. apply Z.leb_le in Hle.
  set (tb := default 0 (<[from:=fb - a]> b !! to)).
  assert (Htb0 : 0 <= tb).
  { unfold tb. destruct (decide (to = from)) as [->|Hne].
    - rewrite lookup_insert_eq. simpl. lia.
    - rewrite lookup_insert_ne by congruence. destruct (b !! to) eqn:Ht; simpl; [|lia].
      specialize (Hpos _ _ Ht). simpl in Hpos. lia. }
  destruct (tb + a <=? MAX128); [|discriminate].
  assert (H2 : forall x v, <[to:=tb + a]> (<[from:=fb - a]> b) !! x = Some v ->
                           x <> from -> 0 < v).
  { intros x v Hx Hxf. apply lookup_insert_Some in Hx as [[<- <-]|[_ Hx]]; [lia|].
    rewrite lookup_insert_ne in Hx by congruence. exact (Hpos _ _ Hx). }
  destruct (<[to:=tb + a]> (<[from:=fb - a]> b) !! from) as [v|] eqn:Hv; [|discriminate].
  destruct (v =? 0) eqn:Hv0; intros [= <- _].
  - intros x w Hx. apply lookup_delete_Some in Hx as [Hne Hx].
    exact (H2 x w Hx (not_eq_sym Hne)).
  - intros x w Hx. destruct (decide (x = from)) as [->|Hne]; [|exact (H2 x w Hx Hne)].
    rewrite Hv in Hx. injection Hx as <-. apply Z.eqb_neq in Hv0.
    apply lookup_insert_Some in Hv as [[_ <-]|[_ Hv]]; [lia|].
    rewrite lookup_insert_eq in Hv. injection Hv as <-. lia.
Qed.

Lemma charge_fee_positive b user fee_to fee k b' r :
  charge_fee b user fee_to fee k = Some (b', r) ->
  balances_positive b -> 0 <= fee -> 0 <= k -> balances_positive b'.
Proof.
  intros Hc Hpos Hf Hk. revert Hc. unfold charge_fee, to_tokens128, tokens_sub.
  destruct (fee =? 0); [intros [= <- _]; exact Hpos|].
  assert (Hap : 0 <= fee * k / INT_CONVERSION_K)
    by (apply Z.div_pos; unfold INT_CONVERSION_K; nia).
  destruct (fee * k / INT_CONVERSION_K <=? MAX128); [|discriminate].
  destruct (fee * k / INT_CONVERSION_K <=? fee) eqn:Hle; [|discriminate].
  apply Z.leb_le in Hle.
  destruct (transfer_balance b user fee_to _) as [[b1 [u|e]]|] eqn:H1.
  - intros H2. apply (transfer_balance_positive _ _ _ _ _ _ H2); [|lia].
    apply (transfer_balance_positive _ _ _ _ _ _ H1); [exact Hpos|lia].
  - intros [= <- _]. apply (transfer_balance_positive _ _ _ _ _ _ H1); [exact Hpos|lia].
  - discriminate.
Qed.

Ltac positive_chain :=
  solve [ repeat first
    [ assumption | lia
    | match goal with
      | H : transfer_balance _ _ _ _ = Some (?b', _) |- balances_positive ?b' =>
          apply (transfer_balance_positive _ _ _ _ _ _ H)
      | H : charge_fee _ _ _ _ _ = Some (?b', _) |- balances_positive ?b' =>
          apply (charge_fee_positive _ _ _ _ _ _ _ H)
      end ] ].

Lemma disburse_loop_positive now T C bs b l t b' l' t' :
  disburse_loop now T C bs b l t = Some (b', l', t') ->
  balances_positive b -> 0 <= T -> 0 <= C -> Forall (fun pc => 0 <= pc.2) bs ->
  balances_positive b'.
Proof.
  revert b l t. induction bs as [|[p c] bs IH]; intros b l t H Hpos HT HC Hbs; simpl in H.
  - by simplify_eq.
  - apply Forall_cons in Hbs as [Hc Hbs]. simpl in Hc.
    destruct (C =? 0) eqn:HC0; [discriminate|]. apply Z.eqb_neq in HC0.
    destruct (to_tokens128 (share T C c)) as [s|] eqn:Hs; [|discriminate].
    assert (0 <= s).
    { unfold to_tokens128 in Hs. destruct (_ <=? MAX128); [|discriminate].
      injection Hs as <-. unfold share. apply Z.div_pos; nia. }
    destruct (transfer_balance b auction_principal p s) as [[b1 [u|e]]|] eqn:Hb1;
      [|discriminate|discriminate].
    destruct (tokens_add t s) as [t1|]; [|discriminate].
    apply (IH _ _ _ H); [|lia|lia|exact Hbs].
    apply (transfer_balance_positive _ _ _ _ _ _ Hb1); [exact Hpos|lia].
Qed.

(** X3: no operation other than [mint] ever stores a zero balance: from
    balances that are all positive, [transfer], [transfer_from] (with a
    [Tokens128] amount), [approve], [burn] and the auction settlement all
    leave positive balances, whatever their result, for a nonnegative fee
    and fee ratio. *)
Theorem balances_positive_preserved now st k :
  balances_positive (balances st) -> 0 <= StatsData.fee (stats st) -> 0 <= k ->
  (forall caller to amount fee_limit st' r, 0 <= amount ->
     transfer now st caller to amount fee_limit k = Some (st', r) ->
     balances_positive (balances st')) /\
  (forall caller from to amount st' r, 0 <= amount ->
     transfer_from now st caller from to amount k = Some (st', r) ->
     balances_positive (balances st')) /\
  (forall caller spender amount st' r,
     approve now st caller spender amount k = Some (st', r) ->
     balances_positive (balances st')) /\
  (forall caller from amount st' r,
     burn now st caller from amount = Some (st', r) ->
     balances_positive (balances st')) /\
  (forall bidding n st' info,
     0 <= cycles_since_auction bidding -> map_Forall (fun _ c => 0 <= c) (bids bidding) ->
     disburse_rewards now st bidding n = Some (st', info) ->
     balances_positive (balances st')).
Proof.
  intros Hpos Hf Hk. split; [|split; [|split; [|split]]].
  - intros caller to amount fee_limit st' r Ha H. unfold transfer in H. simpl in H.
    repeat case_match; simplify_eq; simpl; positive_chain.
  - intros caller from to amount st' r Ha H. unfold transfer_from in H. simpl in H.
    repeat case_match; simplify_eq; simpl; positive_chain.
  - intros caller spender amount st' r H. unfold approve in H. simpl in H.
    repeat case_match; simplify_eq; simpl; positive_chain.
  - intros caller from amount st' r H. unfold burn, tokens_sub in H.
    repeat case_match; simplify_eq; simpl; try exact Hpos.
    + by apply map_Forall_delete.
    + rename select ((_ =? 0) = false) into Hz. apply Z.eqb_neq in Hz.
      rename select ((amount <=? _) = true) into Hle. apply Z.leb_le in Hle.
      apply map_Forall_insert_2; [lia|exact Hpos].
  - intros bidding n st' info HC Hbids H. unfold disburse_rewards in H.
    destruct (disburse_loop _ _ _ _ _ _ _) as [[[b l] t]|] eqn:Hl; simpl in H; [|discriminate].
    simplify_eq. simpl. apply (disburse_loop_positive _ _ _ _ _ _ _ _ _ _ Hl Hpos).
    + unfold accumulated_fees. destruct (balances st !! auction_principal) eqn:E; simpl; [|lia].
      specialize (Hpos _ _ E). simpl in Hpos. lia.
    + exact HC.
    + apply map_Forall_to_list in Hbids. eapply Forall_impl; [exact Hbids|].
      intros [p c]. simpl. tauto.
Qed.

Lemma elided_delete al w : allowances_elided al -> allowances_elided (delete w al).
Proof. apply map_Forall_delete. Qed.

Lemma elided_insert al w inner :
  allowances_elided al -> inner <> ∅ -> map_Forall (fun _ v => v <> 0) inner ->
  allowances_elided (<[w:=inner]> al).
Proof. intros Hel Hne Hv. by apply map_Forall_insert_2. Qed.

Ltac elided_solve :=
  repeat match goal with
  | H : (_ =? 0) = false |- _ => apply Z.eqb_neq in H
  | H : ?al !! ?w = Some ?inner, Hel : allowances_elided ?al |- _ =>
      let Hi := fresh "Hi" in pose proof (Hel w inner H) as Hi; clear H; destruct Hi
  | |- context [default ∅ (?al !! ?w)] =>
      let E := fresh "E" in destruct (al !! w) eqn:E; simpl
  end;
  repeat first [ assumption | apply elided_delete | apply elided_insert
               | apply insert_non_empty | apply map_Forall_delete
               | apply map_Forall_insert_2 | apply map_Forall_empty ].

Lemma step_allowances_elided st st' :
  step st st' -> allowances_elided (allowances st) -> allowances_elided (allowances st').
Proof.
  intros Hs Hel. destruct Hs as
    [now st caller to amount fee_limit k st' r _ H
    |now st caller from to amount k st' r _ H
    |now st caller spender amount k st' r _ H
    |now st caller to amount st' r _ H
    |now st caller from amount st' r _ H
    |now st bidding n st' info H
    |st v _|st p|st p]; simpl; try exact Hel.
  - unfold transfer in H. simpl in H. repeat case_match; simplify_eq; simpl; exact Hel.
  - unfold transfer_from in H. simpl in H. repeat case_match; simplify_eq; simpl; elided_solve.
  - unfold approve in H. simpl in H. repeat case_match; simplify_eq; simpl; elided_solve.
  - unfold mint in H. repeat case_match; simplify_eq; simpl; exact Hel.
  - unfold burn in H. repeat case_match; simplify_eq; simpl; exact Hel.
  - unfold disburse_rewards in H.
    destruct (disburse_loop _ _ _ _ _ _ _) as [[[b l] t]|]; simpl in H; [|discriminate].
    simplify_eq. exact Hel.
Qed.

Lemma reachable_elided st : reachable st -> allowances_elided (allowances st).
Proof.
  induction 1 as [now md _|st st' _ IH Hs].
  - apply map_Forall_empty.
  - exact (step_allowances_elided st st' Hs IH).
Qed.

Lemma reachable_st_approved : reachable st_approved.
Proof.
  apply (reachable_step (init 0 md_fee_john)).
  - apply reachable_init. tokens_bound.
  - apply (step_approve 0 (init 0 md_fee_john) "alice" "bob" 500 0 st_approved (Ok 1));
      [tokens_bound|vm_compute; reflexivity].
Qed.

(** X4: in every reachable state no allowance entry is zero and no owner
    maps to an empty inner map: [approve] and [transfer_from] remove the
    entries they bring to zero (invariant A1). *)
Theorem reachable_allowances_elided st :
  reachable st ->
  forall owner inner, allowances st !! owner = Some inner ->
    inner <> ∅ /\ forall spender v, inner !! spender = Some v -> v <> 0.
Proof.
  intros Hr owner inner Hi. exact (reachable_elided st Hr owner inner Hi).
Qed.

Lemma reachable_allowances_elided_witness :
  exists inner, allowances st_approved !! "alice" = Some inner /\ inner <> ∅ /\
    inner !! "bob" = Some 510.
Proof.
  destruct (allowances st_approved !! "alice") as [inner|] eqn:E;
    [|vm_compute in E; discriminate].
  exists inner. split; [reflexivity|].
  split; [exact (proj1 (reachable_allowances_elided st_approved reachable_st_approved
                          "alice" inner E))|].
  vm_compute in E. injection E as <-. vm_compute. reflexivity.
Defined.

(** X5: in every reachable state, [user_approvals(who)] lists each spender
    once, and lists [(spender, v)] exactly when [allowance(who, spender)]
    is the nonzero value [v]. *)
Theorem user_approvals_spec st who :
  reachable st ->
  NoDup (user_approvals st who).*1 /\
  forall spender v, (spender, v) ∈ user_approvals st who <->
    v <> 0 /\ allowance st who spender = v.
Proof.
  intros Hr. pose proof (reachable_elided st Hr) as Hel.
  unfold user_approvals, allowance.
  destruct (allowances st !! who) as [inner|] eqn:Hw.
  - split; [apply NoDup_fst_map_to_list|].
    destruct (Hel who inner Hw) as [_ Hv].
    intros spender v. rewrite elem_of_map_to_list. split.
    + intros Hs. rewrite Hs. split; [exact (Hv spender v Hs)|reflexivity].
    + intros [Hv0 Hs]. destruct (inner !! spender); [congruence|lia].
  - split; [constructor|]. intros spender v. split.
    + intros Hin. inversion Hin.
    + intros [Hv0 Hs]. lia.
Qed.

Lemma user_approvals_spec_witness :
  user_approvals st_approved "alice" = [("bob", 510)] /\
  ("bob", 510) ∈ user_approvals st_approved "alice".
Proof.
  destruct (user_approvals_spec st_approved "alice" reachable_st_approved) as [_ H].
  split; [vm_compute; reflexivity|].
  apply H. split; [lia|vm_compute; reflexivity].
Defined.

Lemma approve_allowance_eq now st caller spender amount k st' r :
  approve now st caller spender amount k = Some (st', r) ->
  match r with
  | Ok _ => forall owner s, allowance st' owner s =
      if decide (owner = caller /\ s = spender) then amount + StatsData.fee (stats st)
      else allowance st owner s
  | Err _ => allowances st' = allowances st
  end.
Proof.
  unfold approve, ledger_approve. simpl. intros H.
  destruct (balance_of (balances st) caller <? StatsData.fee (stats st));
    [injection H as <- <-; reflexivity|].
  destruct (charge_fee _ _ _ _ _) as [[b1 [[]|e]]|]; [|discriminate|discriminate].
  unfold tokens_add in H.
  destruct (amount + StatsData.fee (stats st) <=? MAX128); [|injection H as <- <-; reflexivity].
  injection H as <- <-. intros owner s. unfold allowance. cbn [allowances].
  set (awf := amount + StatsData.fee (stats st)).
  destruct (awf =? 0) eqn:Hz.
  - apply Z.eqb_eq in Hz.
    destruct (allowances st !! caller) as [inner|] eqn:Hc.
    + case_decide as Hemp.
      * destruct (decide (owner = caller)) as [->|Hne].
        -- rewrite lookup_delete_eq, Hc.
           case_decide as Hs; [lia|].
           destruct (decide (s = spender)) as [->|Hs']; [tauto|].
           rewrite <- (lookup_delete_ne inner spender s) by congruence.
           rewrite Hemp, lookup_empty. reflexivity.
        -- rewrite lookup_delete_ne by congruence. rewrite decide_False by tauto. reflexivity.
      * destruct (decide (owner = caller)) as [->|Hne].
        -- rewrite lookup_insert_eq, Hc.
           case_decide as Hs.
           ++ destruct Hs as [_ ->]. rewrite lookup_delete_eq. lia.
           ++ rewrite lookup_delete_ne by (intros Heq; apply Hs; split; congruence).
              reflexivity.
        -- rewrite lookup_insert_ne by congruence. rewrite decide_False by tauto. reflexivity.
    + case_decide as Hs.
      * destruct Hs as [-> ->]. rewrite Hc. lia.
      * reflexivity.
  - destruct (decide (owner = caller)) as [->|Hne].
    + rewrite lookup_insert_eq. case_decide as Hs.
      * destruct Hs as [_ ->]. rewrite lookup_insert_eq. reflexivity.
      * rewrite lookup_insert_ne by (intros Heq; apply Hs; split; congruence).
        destruct (allowances st !! caller); reflexivity.
    + rewrite lookup_insert_ne by congruence. rewrite decide_False by tauto. reflexivity.
Qed.

(** X6: [approve] sets the [(caller, spender)] allowance to [amount + fee],
    replacing the previous value (zero when [amount + fee] is zero), and
    leaves every other allowance as it was; an error leaves all
    allowances unchanged. *)
Theorem approve_sets_allowance now st caller spender amount k st' r :
  approve now st caller spender amount k = Some (st', r) ->
  match r with
  | Ok _ => forall owner s, allowance st' owner s =
      if decide (owner = caller /\ s = spender) then amount + StatsData.fee (stats st)
      else allowance st owner s
  | Err _ => allowances st' = allowances st
  end.
Proof. apply approve_allowance_eq. Qed.

Lemma foldl_add x ys : foldl Nat.add x ys = (x + foldr Nat.add 0 ys)%nat.
Proof.
  revert x. induction ys as [|y ys IH]; intros x; simpl; [lia|]. rewrite IH. lia.
Qed.

Lemma allowance_size_entries st : allowance_size st = allowance_entries (allowances st).
Proof.
  unfold allowance_size, allowance_entries. rewrite map_fold_foldr.
  destruct (map_to_list (allowances st)) as [|[w inner] l]; simpl; [reflexivity|].
  rewrite foldl_add. f_equal.
  induction l as [|[w' i'] l IH]; simpl; [reflexivity|]. rewrite IH. reflexivity.
Qed.

Lemma allowance_entries_delete al w :
  (allowance_entries (delete w al) + size (default ∅ (al !! w)) = allowance_entries al)%nat.
Proof.
  unfold allowance_entries. destruct (al !! w) as [inner|] eqn:Hw; simpl.
  - rewrite (map_fold_delete_L _ 0%nat w inner al); [lia| |exact Hw].
    intros; lia.
  - rewrite delete_id by exact Hw. rewrite map_size_empty. lia.
Qed.

Lemma allowance_entries_insert al w inner :
  (allowance_entries (<[w:=inner]> al) + size (default ∅ (al !! w))
   = allowance_entries al + size inner)%nat.
Proof.
  rewrite <- insert_delete_eq. unfold allowance_entries at 1.
  rewrite (map_fold_insert_L _ 0%nat w inner (delete w al)); [|intros; lia|apply lookup_delete_eq].
  fold (allowance_entries (delete w al)). pose proof (allowance_entries_delete al w). lia.
Qed.

Lemma elided_entries_zero al :
  allowances_elided al -> allowance_entries al = 0%nat <-> al = ∅.
Proof.
  induction al as [|w inner al Hw IH] using map_ind; intros Hel.
  - unfold allowance_entries. rewrite map_fold_empty. tauto.
  - pose proof (allowance_entries_insert al w inner) as Hi. rewrite Hw in Hi. simpl in Hi.
    rewrite map_size_empty in Hi.
    apply map_Forall_insert in Hel as [[Hne _] _]; [|exact Hw].
    apply map_size_non_empty_iff in Hne.
    split; [lia|]. intros Hemp. exfalso. exact (insert_non_empty _ _ _ Hemp).
Qed.

Lemma elided_empty_iff al :
  allowances_elided al ->
  al = ∅ <-> forall owner spender,
    match al !! owner with
    | Some inner => match inner !! spender with Some v => v | None => 0 end
    | None => 0
    end = 0.
Proof.
  intros Hel. split.
  - intros -> owner spender. rewrite lookup_empty. reflexivity.
  - intros H. destruct (decide (al = ∅)) as [|Hne]; [assumption|exfalso].
    apply map_choose in Hne as (w & inner & Hw).
    destruct (Hel w inner Hw) as [Hine Hv].
    apply map_choose in Hine as (s & v & Hs).
    specialize (H w s). rewrite Hw, Hs in H. exact (Hv s v Hs H).
Qed.

(** X7: in every reachable state [allowance_size] is zero exactly when
    every allowance is zero; a successful [approve(spender, amount)] adds
    one when it creates a nonzero allowance where there was none and
    removes one when it sets an existing allowance to zero
    ([amount + fee = 0]), and otherwise keeps the size. *)
Theorem allowance_size_spec st :
  reachable st ->
  (allowance_size st = 0%nat <-> forall owner spender, allowance st owner spender = 0) /\
  (forall now caller spender amount k st' id,
     approve now st caller spender amount k = Some (st', Ok id) ->
     Z.of_nat (allowance_size st') =
       Z.of_nat (allowance_size st)
       + (if amount + StatsData.fee (stats st) =? 0 then 0 else 1)
       - (if allowance st caller spender =? 0 then 0 else 1)).
Proof.
  intros Hr. pose proof (reachable_elided st Hr) as Hel. split.
  - rewrite allowance_size_entries, (elided_entries_zero _ Hel), (elided_empty_iff _ Hel).
    reflexivity.
  - intros now caller spender amount k st' id H.
    rewrite !allowance_size_entries.
    unfold approve, ledger_approve in H. simpl in H.
    destruct (balance_of (balances st) caller <? StatsData.fee (stats st)); [discriminate|].
    destruct (charge_fee _ _ _ _ _) as [[b1 [[]|e]]|]; [|discriminate|discriminate].
    unfold tokens_add in H.
    destruct (amount + StatsData.fee (stats st) <=? MAX128); [|discriminate].
    injection H as <- _. cbn [allowances]. unfold allowance.
    set (awf := amount + StatsData.fee (stats st)).
    destruct (awf =? 0) eqn:Hz.
    + destruct (allowances st !! caller) as [inner|] eqn:Hc.
      * destruct (Hel caller inner Hc) as [Hne Hv].
        apply map_size_non_empty_iff in Hne as Hsz.
        pose proof (allowance_entries_delete (allowances st) caller) as Hd.
        pose proof (allowance_entries_insert (allowances st) caller (delete spender inner)) as Hi.
        rewrite Hc in Hd, Hi. simpl in Hd, Hi.
        pose proof (map_size_delete spender inner) as Hsd.
        destruct (inner !! spender) as [v|] eqn:Hs.
        -- rewrite (proj2 (Z.eqb_neq v 0) (Hv spender v Hs)).
           case_decide as Hemp.
           ++ rewrite Hemp, map_size_empty in Hsd. lia.
           ++ lia.
        -- rewrite delete_id in * by exact Hs. rewrite decide_False by exact Hne.
           rewrite insert_id by exact Hc. rewrite Z.eqb_refl. lia.
      * rewrite Z.eqb_refl. lia.
    + pose proof (allowance_entries_insert (allowances st) caller
                    (<[spender:=awf]> (default ∅ (allowances st !! caller)))) as Hi.
      pose proof (map_size_insert spender awf (default ∅ (allowances st !! caller))) as Hsi.
      destruct (allowances st !! caller) as [inner|] eqn:Hc; simpl in Hi, Hsi |- *.
      * destruct (Hel caller inner Hc) as [_ Hv].
        destruct (inner !! spender) as [v|] eqn:Hs.
        -- rewrite (proj2 (Z.eqb_neq v 0) (Hv spender v Hs)). simpl in Hsi. lia.
        -- simpl in Hsi. rewrite Z.eqb_refl. lia.
      * rewrite lookup_empty in Hsi. simpl in Hsi. rewrite map_size_empty in Hi, Hsi. lia.
Qed.

Lemma allowance_size_spec_witness :
  allowance_size st_approved = 1%nat /\
  exists st', approve 0 st_approved "alice" "carol" 100 0 = Some (st', Ok 2) /\
    allowance_size st' = 2%nat.
Proof.
  destruct (allowance_size_spec st_approved reachable_st_approved) as [_ H].
  split; [vm_compute; reflexivity|].
  destruct (approve 0 st_approved "alice" "carol" 100 0) as [[st' [id|e]]|] eqn:E;
    [|vm_compute in E; discriminate|vm_compute in E; discriminate].
  assert (Hid : id = 2) by (vm_compute in E; congruence). subst id.
  exists st'. split; [reflexivity|].
  pose proof (H 0 "alice" "carol" 100 0 st' 2 E) as Hs.
  assert (E1 : allowance_size st_approved = 1%nat) by (vm_compute; reflexivity).
  assert (E2 : (100 + StatsData.fee (stats st_approved) =? 0) = false)
    by (vm_compute; reflexivity).
  assert (E3 : (allowance st_approved "alice" "carol" =? 0) = true)
    by (vm_compute; reflexivity).
  rewrite E1, E2, E3 in Hs. lia.
Defined.

Lemma next_id_ge l : 0 <= Z.of_nat (length (history l)) -> vec_offset l <= next_id l.
Proof. unfold next_id. lia. Qed.

Lemma push_inv l r :
  ledger_inv l -> index r = next_id l -> status r = Succeeded -> ledger_inv (push l r).
Proof.
  intros (Hwf & Hn & Hlen & Hst) Hr Hs. unfold notifications_wf in Hn |- *.
  pose proof (push_wf l r Hwf Hr) as Hwf'.
  pose proof (proj1 (push_next_id l r)) as Hnext.
  pose proof Hwf as Hwf2. apply ledger_wf_lookup in Hwf2 as [Hoff Hidx].
  pose proof (snoc_indices l r Hidx Hr) as Hh.
  assert (Hst' : Forall (fun r => status r = Succeeded) (history l ++ [r]))
    by (apply Forall_app; split; [exact Hst|by constructor]).
  destruct (push_cases l r) as [[Hlen' Hp]|[Hlen' Hp]];
    rewrite Hp in Hnext, Hwf' |- *; rewrite length_app in Hlen'; simpl in Hlen';
    unfold MAX_HISTORY_LENGTH, HISTORY_REMOVAL_BATCH_SIZE in *.
  - split; [exact Hwf'|]. split; [|split].
    + intros id. cbn [notifications vec_offset]. rewrite Hnext.
      rewrite foldl_delete_lookup.
      pose proof (indices_take _ (vec_offset l) (Z.to_nat 10000) id Hh) as Hti.
      rewrite length_app in Hti. simpl in Hti. specialize (Hti ltac:(lia)).
      case_decide as Hin.
      * apply Hti in Hin. split; [intros [? Hx]; discriminate|lia].
      * rewrite Hti in Hin. rewrite lookup_insert_is_Some', Hr, Hn. unfold next_id. lia.
    + cbn [history]. rewrite length_drop, length_app. simpl. unfold MAX_HISTORY_LENGTH, HISTORY_REMOVAL_BATCH_SIZE. lia.
    + cbn [history]. by apply Forall_drop.
  - split; [exact Hwf'|]. split; [|split].
    + intros id. cbn [notifications vec_offset]. rewrite Hnext.
      rewrite lookup_insert_is_Some', Hr, Hn. unfold next_id. lia.
    + cbn [history]. rewrite length_app. simpl.
      unfold MAX_HISTORY_LENGTH, HISTORY_REMOVAL_BATCH_SIZE. lia.
    + exact Hst'.
Qed.

Lemma pushed_inv l l' : pushed l l' -> ledger_inv l -> ledger_inv l'.
Proof.
  induction 1 as [|l' r _ IH Hr Hs]; intros Hl; [exact Hl|].
  apply push_inv; [exact (IH Hl)|exact Hr|exact Hs].
Qed.

Lemma pushed_trans l1 l2 l3 : pushed l1 l2 -> pushed l2 l3 -> pushed l1 l3.
Proof.
  intros H12 H23. induction H23 as [|l' r _ IH Hr Hs]; [exact H12|].
  apply pushed_push; assumption.
Qed.

Lemma pushed_next_id l l' : pushed l l' -> next_id l <= next_id l'.
Proof.
  induction 1 as [|l' r _ IH Hr Hs]; [lia|].
  rewrite (proj1 (push_next_id l' r)). lia.
Qed.

Lemma pushed_one l r : index r = next_id l -> status r = Succeeded -> pushed l (push l r).
Proof. intros Hr Hs. apply pushed_push; [constructor|exact Hr|exact Hs]. Qed.

Lemma disburse_loop_pushed now T C bs b l t b' l' t' :
  disburse_loop now T C bs b l t = Some (b', l', t') -> pushed l l'.
Proof.
  revert b l t. induction bs as [|[p c] bs IH]; intros b l t H; simpl in H.
  - simplify_eq. constructor.
  - repeat case_match; simplify_eq.
    apply (pushed_trans _ (record_auction now l p z)); [|exact (IH _ _ _ H)].
    by apply pushed_one.
Qed.

Lemma step_pushed st st' : step st st' -> pushed (ledger st) (ledger st').
Proof.
  intros Hs. destruct Hs as
    [now st caller to amount fee_limit k st' r _ H
    |now st caller from to amount k st' r _ H
    |now st caller spender amount k st' r _ H
    |now st caller to amount st' r _ H
    |now st caller from amount st' r _ H
    |now st bidding n st' info H
    |st v _|st p|st p]; simpl; try constructor.
  - unfold transfer, ledger_transfer in H. simpl in H.
    repeat case_match; simplify_eq; simpl; first [apply pushed_refl|by apply pushed_one].
  - unfold transfer_from, ledger_transfer_from in H. simpl in H.
    repeat case_match; simplify_eq; simpl; first [apply pushed_refl|by apply pushed_one].
  - unfold approve, ledger_approve in H. simpl in H.
    repeat case_match; simplify_eq; simpl; first [apply pushed_refl|by apply pushed_one].
  - unfold mint, ledger_mint in H.
    repeat case_match; simplify_eq; simpl; first [apply pushed_refl|by apply pushed_one].
  - unfold burn, ledger_burn in H.
    repeat case_match; simplify_eq; simpl; first [apply pushed_refl|by apply pushed_one].
  - unfold disburse_rewards in H.
    destruct (disburse_loop _ _ _ _ _ _ _) as [[[b l] t]|] eqn:Hl; simpl in H; [|discriminate].
    simplify_eq. exact (disburse_loop_pushed _ _ _ _ _ _ _ _ _ _ Hl).
Qed.

Lemma ledger_inv_default : ledger_inv ledger_default.
Proof.
  split; [unfold ledger_wf; simpl; split; [lia|reflexivity]|]. split; [|split; [simpl; unfold MAX_HISTORY_LENGTH, HISTORY_REMOVAL_BATCH_SIZE; lia|constructor]].
  intros id. simpl. rewrite lookup_empty. unfold next_id. simpl.
  split; [intros [? H]; discriminate|lia].
Qed.

Lemma reachable_pushed st :
  reachable st -> pushed ledger_default (ledger st) /\ 1 <= next_id (ledger st).
Proof.
  induction 1 as [now md _|st st' _ [IH1 IH2] Hs].
  - unfold init, ledger_mint. simpl. split; [by apply pushed_one|reflexivity].
  - pose proof (step_pushed st st' Hs) as Hp.
    split; [exact (pushed_trans _ _ _ IH1 Hp)|].
    pose proof (pushed_next_id _ _ Hp). lia.
Qed.

Lemma reachable_ledger_inv st : reachable st -> ledger_inv (ledger st).
Proof.
  intros Hr. apply (pushed_inv ledger_default); [exact (proj1 (reachable_pushed st Hr))|].
  exact ledger_inv_default.
Qed.

(** X8: in every reachable state the ledger's record at physical position
    [i] has index [vec_offset + i], and the pending-notification keys are
    exactly the indices [vec_offset .. len - 1] of the retained records:
    the batch truncation removes the notifications of the records it
    drops, and only those. *)
Theorem reachable_ledger_indices st :
  reachable st ->
  ledger_wf (ledger st) /\
  forall id, is_Some (notifications (ledger st) !! id) <->
             vec_offset (ledger st) <= id < len (ledger st).
Proof.
  intros Hr. destruct (reachable_ledger_inv st Hr) as (Hwf & Hn & _ & _).
  split; [exact Hwf|exact Hn].
Qed.

(** X9: in every reachable state the ledger is never empty
    ([history_size >= 1], [is_empty] false: [init] records the initial
    mint), holds at most [1_010_000] records in memory, and every record
    has status [Succeeded]; every update call only appends records, so
    [history_size] never decreases. *)
Theorem reachable_ledger_shape st :
  reachable st ->
  1 <= history_size st /\ is_empty (ledger st) = false /\
  Z.of_nat (length (history (ledger st))) <= MAX_HISTORY_LENGTH + HISTORY_REMOVAL_BATCH_SIZE /\
  (forall r, r ∈ history (ledger st) -> status r = Succeeded) /\
  (forall st', step st st' -> history_size st <= history_size st').
Proof.
  intros Hr. destruct (reachable_ledger_inv st Hr) as (_ & _ & Hlen & Hst).
  pose proof (proj2 (reachable_pushed st Hr)) as H1.
  unfold history_size, is_empty, len. unfold next_id in H1.
  split; [lia|]. split; [apply Z.eqb_neq; lia|]. split; [exact Hlen|]. split.
  - intros r Hin. rewrite Forall_forall in Hst. exact (Hst r Hin).
  - intros st' Hs. pose proof (pushed_next_id _ _ (step_pushed st st' Hs)) as H.
    unfold next_id in H. lia.
Qed.

Lemma push_get_last usize_max l r :
  ledger_wf l -> index r = next_id l -> next_id l <= usize_max ->
  get usize_max (push l r) (next_id l) = Some r.
Proof.
  intros Hwf Hr Hmax. pose proof Hwf as [Hoff _].
  unfold get, get_index.
  destruct (push_cases l r) as [[Hlen Hp]|[Hlen Hp]]; rewrite Hp; cbn [vec_offset history];
    rewrite length_app in Hlen; simpl in Hlen; unfold next_id in *;
    unfold MAX_HISTORY_LENGTH, HISTORY_REMOVAL_BATCH_SIZE in *.
  - rewrite (proj2 (Z.ltb_ge _ _)) by lia. rewrite (proj2 (Z.ltb_ge _ _)) by lia. simpl.
    rewrite lookup_drop.
    replace (Z.to_nat 10000 + Z.to_nat (vec_offset l + Z.of_nat (length (history l))
               - (vec_offset l + 10000)))%nat with (length (history l)) by lia.
    apply list_lookup_middle. reflexivity.
  - rewrite (proj2 (Z.ltb_ge _ _)) by lia. rewrite (proj2 (Z.ltb_ge _ _)) by lia. simpl.
    replace (Z.to_nat (vec_offset l + Z.of_nat (length (history l)) - vec_offset l))
      with (length (history l)) by lia.
    apply list_lookup_middle. reflexivity.
Qed.

Lemma balances_positive_preserved_witness :
  exists st' r,
    transfer 0 (init 0 md_fee_john) "alice" "bob" 100 None (5 * 10 ^ 11) = Some (st', r) /\
    balances_positive (balances st').
Proof.
  destruct (transfer 0 (init 0 md_fee_john) "alice" "bob" 100 None (5 * 10 ^ 11))
    as [[st' r]|] eqn:E; [|vm_compute in E; discriminate].
  exists st', r. split; [reflexivity|].
  assert (Hpos : balances_positive (balances (init 0 md_fee_john))) by wf_eval.
  destruct (balances_positive_preserved 0 (init 0 md_fee_john) (5 * 10 ^ 11) Hpos
              ltac:(vm_compute; discriminate) ltac:(lia)) as [H _].
  exact (H "alice" "bob" 100 None st' r ltac:(lia) E).
Defined.

Lemma reachable_ledger_indices_witness :
  ledger_wf (ledger st_approved) /\ is_Some (notifications (ledger st_approved) !! 1).
Proof.
  destruct (reachable_ledger_indices st_approved reachable_st_approved) as [Hwf Hn].
  split; [exact Hwf|]. apply Hn.
  assert (E : vec_offset (ledger st_approved) = 0 /\ len (ledger st_approved) = 2)
    by (vm_compute; split; reflexivity).
  lia.
Defined.

Lemma reachable_ledger_shape_witness :
  1 <= history_size st_approved /\ is_empty (ledger st_approved) = false.
Proof.
  destruct (reachable_ledger_shape st_approved reachable_st_approved) as (H1 & H2 & _).
  split; [exact H1|exact H2].
Defined.

Lemma insert_desc_perm x xs : insert_desc x xs ≡ₚ x :: xs.
Proof.
  induction xs as [|y xs IH]; simpl; [reflexivity|].
  destruct (y.2 <? x.2); [reflexivity|]. rewrite IH. apply Permutation_swap.
Qed.

Lemma sort_desc_perm xs : sort_desc xs ≡ₚ xs.
Proof.
  unfold sort_desc.
  assert (H : forall acc, foldl (fun acc x => insert_desc x acc) acc xs ≡ₚ xs ++ acc).
  { induction xs as [|x xs IH]; intros acc; simpl; [reflexivity|].
    rewrite IH, insert_desc_perm. symmetry. apply Permutation_middle. }
  rewrite H, app_nil_r. reflexivity.
Qed.

Lemma insert_desc_sorted x xs :
  StronglySorted balance_desc xs -> StronglySorted balance_desc (insert_desc x xs).
Proof.
  unfold balance_desc. induction 1 as [|y xs Hs IH Hy]; simpl.
  - repeat constructor.
  - destruct (y.2 <? x.2) eqn:E.
    + apply Z.ltb_lt in E. constructor; [constructor; assumption|].
      constructor; [lia|]. eapply Forall_impl; [exact Hy|]. simpl. lia.
    + apply Z.ltb_ge in E. constructor; [exact IH|].
      rewrite (insert_desc_perm x xs). constructor; [lia|exact Hy].
Qed.

Lemma sort_desc_sorted xs : StronglySorted balance_desc (sort_desc xs).
Proof.
  unfold sort_desc.
  assert (H : forall acc, StronglySorted balance_desc acc ->
              StronglySorted balance_desc (foldl (fun acc x => insert_desc x acc) acc xs)).
  { induction xs as [|x xs IH]; intros acc Hacc; simpl; [exact Hacc|].
    apply IH, insert_desc_sorted, Hacc. }
  apply H. constructor.
Qed.

Lemma get_holders_slice usize_bits b start limit hs :
  get_holders usize_bits b start limit = Some hs ->
  exists n, hs = take n (drop (Z.to_nat start) (sort_desc (map_to_list b))) /\
    (0 <= start -> (Z.to_nat start + n <= size b)%nat).
Proof.
  unfold get_holders, slice. rewrite length_sort_desc, length_map_to_list.
  set (e := Z.min _ _).
  destruct ((start <=? e) && (e <=? Z.of_nat (size b))) eqn:E; [|discriminate].
  apply andb_true_iff in E as [E1 E2]. apply Z.leb_le in E1, E2.
  intros [= <-]. eexists. split; [reflexivity|]. lia.
Qed.

Lemma ssorted_drop {A} (R : relation A) n (h : list A) :
  StronglySorted R h -> StronglySorted R (drop n h).
Proof.
  rewrite <- (take_drop n h) at 1. apply StronglySorted_app_1_r.
Qed.

(** X10: [get_holders] lists holders by decreasing balance, each holder at
    most once and with its balance; from [start = 0] it returns the
    largest balances: no holder left out has more than any holder
    returned. *)
Theorem get_holders_ranked usize_bits b start limit hs :
  get_holders usize_bits b start limit = Some hs ->
  StronglySorted balance_desc hs /\ NoDup hs.*1 /\
  (forall p v, (p, v) ∈ hs -> b !! p = Some v) /\
  (start = 0 -> forall p v q w, (p, v) ∈ hs -> b !! q = Some w -> q ∉ hs.*1 -> w <= v).
Proof.
  intros H. destruct (get_holders_slice _ _ _ _ _ H) as (n & -> & _).
  set (L := sort_desc (map_to_list b)).
  assert (HL : L ≡ₚ map_to_list b) by apply sort_desc_perm.
  assert (Hsub : take n (drop (Z.to_nat start) L) `sublist_of` L).
  { transitivity (drop (Z.to_nat start) L); [apply sublist_take|apply sublist_drop]. }
  split; [|split; [|split]].
  - apply ssorted_take, ssorted_drop, sort_desc_sorted.
  - apply (sublist_NoDup _ (L.*1)); [|by apply fmap_sublist].
    rewrite HL. apply NoDup_fst_map_to_list.
  - intros p v Hin. apply elem_of_map_to_list. rewrite <- HL.
    exact (elem_of_sublist _ _ _ Hin Hsub).
  - intros -> p v q w Hp Hq Hnot. simpl in Hp, Hnot. rewrite drop_0 in Hp, Hnot.
    assert (HqL : (q, w) ∈ L) by (rewrite HL; by apply elem_of_map_to_list).
    rewrite <- (take_drop n L) in HqL. apply elem_of_app in HqL as [Hin|Hin].
    + exfalso. apply Hnot. apply list_elem_of_fmap. exists (q, w). split; [reflexivity|exact Hin].
    + pose proof (sort_desc_sorted (map_to_list b)) as Hs. fold L in Hs.
      rewrite <- (take_drop n L) in Hs.
      exact (StronglySorted_app_1_elem_of _ _ _ _ _ Hs Hp Hin).
Qed.

Lemma get_holders_ranked_witness :
  get_holders 32 holders_example 0 2 = Some [("alice", 1000); ("bob", 500)] /\
  ~ ("carol" ∈ [("alice", 1000); ("bob", 500)].*1) /\ 200 <= 500.
Proof.
  assert (E : get_holders 32 holders_example 0 2 = Some [("alice", 1000); ("bob", 500)])
    by (vm_compute; reflexivity).
  destruct (get_holders_ranked 32 holders_example 0 2 _ E) as (_ & _ & _ & Hr).
  split; [exact E|]. split; [vm_compute; intros Hin; inversion Hin as [|? ? ? Hin'];
    inversion Hin' as [|? ? ? Hin'']; inversion Hin''|].
  apply (Hr eq_refl "bob" 500 "carol" 200).
  - right. left.
  - vm_compute. reflexivity.
  - intros Hin. inversion Hin as [|? ? ? Hin']; inversion Hin' as [|? ? ? Hin''];
      inversion Hin''.
Defined.

(** X11: for [start] at most the number of holders and [start + limit] not
    wrapping around [usize], [get_holders] returns [min(limit, holders -
    start)] holders; when [start + limit] wraps around (a [limit] near
    [usize::MAX]) and [start > 0], the computed end falls below [start]
    and the call traps. *)
Theorem get_holders_length usize_bits b start limit :
  0 <= start -> 0 <= limit ->
  (start <= Z.of_nat (size b) -> start + limit < 2 ^ usize_bits ->
   exists hs, get_holders usize_bits b start limit = Some hs /\
     Z.of_nat (length hs) = Z.min limit (Z.of_nat (size b) - start)) /\
  (0 < start < 2 ^ usize_bits -> limit < 2 ^ usize_bits -> 2 ^ usize_bits <= start + limit ->
   get_holders usize_bits b start limit = None).
Proof.
  intros Hs Hl. unfold get_holders, slice.
  rewrite length_sort_desc, length_map_to_list. split.
  - intros Hle Hw. rewrite Z.mod_small by lia.
    rewrite (proj2 (Z.leb_le start _)) by lia.
    rewrite (proj2 (Z.leb_le (Z.min (start + limit) _) _)) by lia. simpl.
    eexists. split; [reflexivity|].
    rewrite length_take, length_drop, length_sort_desc, length_map_to_list. lia.
  - intros Hs0 Hl0 Hw.
    rewrite (Z.mod_eq (start + limit)) by lia.
    replace ((start + limit) / 2 ^ usize_bits) with 1.
    + rewrite (proj2 (Z.leb_gt start _)) by lia. reflexivity.
    + apply (Z.div_unique_pos _ _ _ (start + limit - 2 ^ usize_bits)); lia.
Qed.

Lemma get_holders_length_witness :
  exists hs, get_holders 32 holders_example 1 5 = Some hs /\ length hs = 2%nat /\
  get_holders 32 holders_example 1 (2 ^ 32 - 1) = None.
Proof.
  destruct (get_holders_length 32 holders_example 1 5 ltac:(lia) ltac:(lia)) as [H1 _].
  destruct (get_holders_length 32 holders_example 1 (2 ^ 32 - 1) ltac:(lia) ltac:(lia))
    as [_ H2].
  assert (Hsz : Z.of_nat (size holders_example) = 3) by (vm_compute; reflexivity).
  destruct H1 as (hs & Hhs & Hlen); [lia|lia|].
  exists hs. split; [exact Hhs|]. split; [lia|].
  apply H2; lia.
Defined.

Lemma transfer_ok_ledger now st caller to amount fl k st' id :
  transfer now st caller to amount fl k = Some (st', Ok id) ->
  id = next_id (ledger st) /\
  ledger st' = push (ledger st) (TxRecord_transfer now id caller to amount (StatsData.fee (stats st))).
Proof. unfold transfer, ledger_transfer. simpl. intros H. repeat case_match; simplify_eq; auto. Qed.

Lemma transfer_from_ok_ledger now st caller from to amount k st' id :
  transfer_from now st caller from to amount k = Some (st', Ok id) ->
  id = next_id (ledger st) /\
  ledger st' = push (ledger st)
    (TxRecord_transfer_from now id caller from to amount (StatsData.fee (stats st))).
Proof. unfold transfer_from, ledger_transfer_from. simpl. intros H. repeat case_match; simplify_eq; auto. Qed.

Lemma approve_ok_ledger now st caller spender amount k st' id :
  approve now st caller spender amount k = Some (st', Ok id) ->
  id = next_id (ledger st) /\
  ledger st' = push (ledger st)
    (TxRecord_approve now id caller spender amount (StatsData.fee (stats st))).
Proof. unfold approve, ledger_approve. simpl. intros H. repeat case_match; simplify_eq; auto. Qed.

Lemma mint_ok_ledger now st caller to amount st' id :
  mint now st caller to amount = Some (st', Ok id) ->
  id = next_id (ledger st) /\ ledger st' = push (ledger st) (TxRecord_mint now id caller to amount).
Proof. unfold mint, ledger_mint. intros H. repeat case_match; simplify_eq; auto. Qed.

Lemma burn_ok_ledger now st caller from amount st' id :
  burn now st caller from amount = Some (st', Ok id) ->
  id = next_id (ledger st) /\ ledger st' = push (ledger st) (TxRecord_burn now id caller from amount).
Proof. unfold burn, ledger_burn. intros H. repeat case_match; simplify_eq; auto. Qed.

(** X12: right after a successful [transfer], [transfer_from], [approve],
    [mint] or [burn] returning [id], [get_transaction(id)] returns the
    record the operation appended, with index [id], the call's
    principals, amount and fee, the call's time and status
    [Succeeded]. *)
Theorem get_transaction_after_update now st usize_max :
  ledger_wf (ledger st) -> next_id (ledger st) <= usize_max ->
  (forall caller to amount fl k st' id,
     transfer now st caller to amount fl k = Some (st', Ok id) ->
     get_transaction usize_max st' id
       = Some (TxRecord_transfer now id caller to amount (StatsData.fee (stats st)))) /\
  (forall caller from to amount k st' id,
     transfer_from now st caller from to amount k = Some (st', Ok id) ->
     get_transaction usize_max st' id
       = Some (TxRecord_transfer_from now id caller from to amount (StatsData.fee (stats st)))) /\
  (forall caller spender amount k st' id,
     approve now st caller spender amount k = Some (st', Ok id) ->
     get_transaction usize_max st' id
       = Some (TxRecord_approve now id caller spender amount (StatsData.fee (stats st)))) /\
  (forall caller to amount st' id,
     mint now st caller to amount = Some (st', Ok id) ->
     get_transaction usize_max st' id = Some (TxRecord_mint now id caller to amount)) /\
  (forall caller from amount st' id,
     burn now st caller from amount = Some (st', Ok id) ->
     get_transaction usize_max st' id = Some (TxRecord_burn now id caller from amount)).
Proof.
  intros Hwf Hmax. unfold get_transaction.
  split; [|split; [|split; [|split]]].
  - intros ? ? ? ? ? ? ? H. apply transfer_ok_ledger in H as [-> ->].
    by apply push_get_last.
  - intros ? ? ? ? ? ? ? H. apply transfer_from_ok_ledger in H as [-> ->].
    by apply push_get_last.
  - intros ? ? ? ? ? ? H. apply approve_ok_ledger in H as [-> ->].
    by apply push_get_last.
  - intros ? ? ? ? ? H. apply mint_ok_ledger in H as [-> ->].
    by apply push_get_last.
  - intros ? ? ? ? ? H. apply burn_ok_ledger in H as [-> ->].
    by apply push_get_last.
Qed.

Lemma get_transaction_after_update_witness :
  exists st' id, approve 0 (init 0 md_fee_john) "alice" "bob" 500 0 = Some (st', Ok id) /\
    get_transaction USIZE_MAX_WASM32 st' id
      = Some (TxRecord_approve 0 1 "alice" "bob" 500 10).
Proof.
  destruct (approve 0 (init 0 md_fee_john) "alice" "bob" 500 0) as [[st' [id|e]]|] eqn:E;
    [|vm_compute in E; discriminate|vm_compute in E; discriminate].
  assert (Hid : id = 1) by (vm_compute in E; congruence). subst id.
  exists st', 1. split; [reflexivity|].
  destruct (get_transaction_after_update 0 (init 0 md_fee_john) USIZE_MAX_WASM32
              ltac:(wf_eval) ltac:(vm_compute; discriminate)) as (_ & _ & H & _).
  exact (H "alice" "bob" 500 0 st' 1 E).
Defined.

(** X13: a [transfer], [transfer_from], [mint] or [burn] that returns an
    error leaves the whole canister state (balances, stats, allowances,
    ledger) as it was; so does an [approve] failing with
    [InsufficientBalance]. *)
Theorem error_leaves_state now st :
  (forall caller to amount fl k st' e,
     transfer now st caller to amount fl k = Some (st', Err e) -> st' = st) /\
  (forall caller from to amount k st' e,
     transfer_from now st caller from to amount k = Some (st', Err e) -> st' = st) /\
  (forall caller to amount st' e, mint now st caller to amount = Some (st', Err e) -> st' = st) /\
  (forall caller from amount st' e, burn now st caller from amount = Some (st', Err e) -> st' = st) /\
  (forall caller spender amount k st',
     approve now st caller spender amount k = Some (st', Err InsufficientBalance) -> st' = st).
Proof.
  split; [|split; [|split; [|split]]].
  - unfold transfer, ledger_transfer. simpl. intros. repeat case_match; simplify_eq; auto.
  - unfold transfer_from, ledger_transfer_from. simpl. intros. repeat case_match; simplify_eq; auto.
  - unfold mint, ledger_mint. intros. repeat case_match; simplify_eq; auto.
  - unfold burn, ledger_burn. intros. repeat case_match; simplify_eq; auto.
  - unfold approve, ledger_approve. simpl. intros caller spender amount k st' H.
    destruct (balance_of (balances st) caller <? StatsData.fee (stats st));
      [by injection H|].
    repeat case_match; simplify_eq.
Qed.

Lemma approve_charges_fee now st caller spender amount k :
  balances_wf (balances st) -> is_tokens (StatsData.fee (stats st)) ->
  0 <= k <= INT_CONVERSION_K ->
  let fee := StatsData.fee (stats st) in
  fee <= balance_of (balances st) caller ->
  exists b1, balances_wf b1 /\
    (forall x, balance_of b1 x =
       balance_of (balances st) x - ind caller x fee
       + ind (StatsData.fee_to (stats st)) x (fee - auction_part fee k)
       + ind auction_principal x (auction_part fee k)) /\
    (MAX128 < amount + fee ->
       approve now st caller spender amount k
         = Some (mkCanisterState b1 (stats st) (allowances st) (ledger st), Err AmountOverflow)) /\
    (amount + fee <= MAX128 ->
       exists st', approve now st caller spender amount k = Some (st', Ok (next_id (ledger st))) /\
         balances st' = b1 /\ stats st' = stats st).
Proof.
  intros Hwf Hf Hk fee Hle. unfold approve, ledger_approve. simpl. fold fee.
  rewrite (proj2 (Z.ltb_ge _ _) Hle).
  destruct (charge_fee_ok (balances st) caller (StatsData.fee_to (stats st)) fee k Hwf)
    as (b1 & Hb1 & Hwf1 & Hbal); [unfold is_tokens in Hf; lia|exact Hle|exact Hk|].
  rewrite Hb1. exists b1. split; [exact Hwf1|]. split; [exact Hbal|]. unfold tokens_add.
  split.
  - intros Hov. rewrite (proj2 (Z.leb_gt _ _) Hov). reflexivity.
  - intros Hok. rewrite (proj2 (Z.leb_le _ _) Hok). eexists. split; [reflexivity|].
    split; reflexivity.
Qed.

(** X14: [approve] checks only that the caller can pay the fee
    ([InsufficientBalance] otherwise, with nothing changed) and charges
    it before checking [amount + fee] for overflow: an overflowing
    [approve] returns [AmountOverflow] with the fee already moved to
    [fee_to] and the auction principal, allowances and ledger unchanged;
    a non-overflowing one succeeds with the next [TxId], the same
    balance changes and the stats unchanged. *)
Theorem approve_outcomes now st caller spender amount k :
  balances_wf (balances st) -> is_tokens (StatsData.fee (stats st)) ->
  0 <= k <= INT_CONVERSION_K ->
  let fee := StatsData.fee (stats st) in
  (balance_of (balances st) caller < fee ->
     approve now st caller spender amount k = Some (st, Err InsufficientBalance)) /\
  (fee <= balance_of (balances st) caller ->
     exists b1, balances_wf b1 /\
       (forall x, balance_of b1 x =
          balance_of (balances st) x - ind caller x fee
          + ind (StatsData.fee_to (stats st)) x (fee - auction_part fee k)
          + ind auction_principal x (auction_part fee k)) /\
       (MAX128 < amount + fee ->
          approve now st caller spender amount k
            = Some (mkCanisterState b1 (stats st) (allowances st) (ledger st), Err AmountOverflow)) /\
       (amount + fee <= MAX128 ->
          exists st', approve now st caller spender amount k = Some (st', Ok (next_id (ledger st))) /\
            balances st' = b1 /\ stats st' = stats st)).
Proof.
  intros Hwf Hf Hk fee. split.
  - intros Hlt. unfold approve. simpl. fold fee. rewrite (proj2 (Z.ltb_lt _ _) Hlt). reflexivity.
  - exact (approve_charges_fee now st caller spender amount k Hwf Hf Hk).
Qed.

Lemma mint_ok now st caller to amount :
  supply_invariant st -> balances_wf (balances st) -> 0 <= amount ->
  StatsData.total_supply (stats st) + amount <= MAX128 ->
  mint now st caller to amount =
    Some (mkCanisterState (<[to := balance_of (balances st) to + amount]> (balances st))
            (StatsData.set_total_supply (stats st) (StatsData.total_supply (stats st) + amount))
            (allowances st) (push (ledger st) (TxRecord_mint now (next_id (ledger st)) caller to amount)),
          Ok (next_id (ledger st))).
Proof.
  intros Hinv [Hpos Hsum] Ha Hts. unfold mint, ledger_mint, tokens_add.
  rewrite (proj2 (Z.leb_le _ _) Hts).
  pose proof (balance_le_sum (balances st) to Hpos) as Hle.
  unfold supply_invariant in Hinv. fold (balance_of (balances st) to).
  rewrite (proj2 (Z.leb_le (balance_of (balances st) to + amount) MAX128)) by lia.
  reflexivity.
Qed.

Lemma burn_ok now st caller from amount :
  supply_invariant st -> balances_wf (balances st) -> 0 <= amount ->
  amount = 0 \/ amount <= balance_of (balances st) from ->
  burn now st caller from amount =
    Some (mkCanisterState
            (match balances st !! from with
             | Some v => if v - amount =? 0 then delete from (balances st)
                         else <[from := v - amount]> (balances st)
             | None => balances st
             end)
            (StatsData.set_total_supply (stats st) (StatsData.total_supply (stats st) - amount))
            (allowances st) (push (ledger st) (TxRecord_burn now (next_id (ledger st)) caller from amount)),
          Ok (next_id (ledger st))).
Proof.
  intros Hinv [Hpos Hsum] Ha Hamt. unfold supply_invariant in Hinv.
  pose proof (balance_le_sum (balances st) from Hpos) as Hle.
  pose proof (balance_of_nonneg (balances st) from Hpos) as Hnn.
  assert (Hts : amount <= StatsData.total_supply (stats st)) by (destruct Hamt; lia).
  unfold burn, ledger_burn, tokens_sub.
  rewrite (proj2 (Z.leb_le amount (StatsData.total_supply (stats st))) Hts).
  unfold balance_of in Hamt, Hle, Hnn. destruct (balances st !! from) as [v|] eqn:Hv; simpl in *.
  - rewrite (proj2 (Z.leb_le amount v)) by (destruct Hamt; lia). reflexivity.
  - assert (amount = 0) as -> by lia. reflexivity.
Qed.

(** X15: from a state whose balances sum to the total supply, [mint(to,
    amount)] returns [AmountOverflow] (changing nothing) exactly when the
    new total supply would exceed [2^128 - 1]; otherwise it credits [to]
    with [amount], raises the total supply by [amount], appends one
    [Mint] record and returns its index. *)
Theorem mint_outcomes now st caller to amount :
  supply_invariant st -> balances_wf (balances st) -> 0 <= amount ->
  (MAX128 < StatsData.total_supply (stats st) + amount ->
     mint now st caller to amount = Some (st, Err AmountOverflow)) /\
  (StatsData.total_supply (stats st) + amount <= MAX128 ->
     exists st', mint now st caller to amount = Some (st', Ok (next_id (ledger st))) /\
       (forall x, balance_of (balances st') x = balance_of (balances st) x + ind to x amount) /\
       StatsData.total_supply (stats st') = StatsData.total_supply (stats st) + amount /\
       allowances st' = allowances st /\
       ledger st' = push (ledger st) (TxRecord_mint now (next_id (ledger st)) caller to amount)).
Proof.
  intros Hinv Hwf Ha. split.
  - intros Hov. unfold mint, tokens_add. rewrite (proj2 (Z.leb_gt _ _) Hov). reflexivity.
  - intros Hok. rewrite (mint_ok now st caller to amount Hinv Hwf Ha Hok).
    eexists. split; [reflexivity|]. cbn [balances stats allowances ledger].
    split; [|split; [reflexivity|split; reflexivity]].
    intros x. unfold balance_of at 1, ind. destruct (decide (to = x)) as [->|Hne].
    + rewrite lookup_insert_eq. simpl. lia.
    + rewrite lookup_insert_ne by exact Hne. simpl. fold (balance_of (balances st) x). lia.
Qed.

(** X16: from a state whose balances sum to the total supply, [burn(from,
    amount)] with a nonzero amount above [from]'s balance returns
    [InsufficientBalance] and changes nothing; otherwise (including a
    zero burn from an account with no balance) it debits [from] by
    [amount], lowers the total supply by [amount], appends one [Burn]
    record and returns its index. *)
Theorem burn_outcomes now st caller from amount :
  supply_invariant st -> balances_wf (balances st) -> 0 <= amount ->
  (amount <> 0 -> balance_of (balances st) from < amount ->
     burn now st caller from amount = Some (st, Err InsufficientBalance)) /\
  (amount = 0 \/ amount <= balance_of (balances st) from ->
     exists st', burn now st caller from amount = Some (st', Ok (next_id (ledger st))) /\
       (forall x, balance_of (balances st') x = balance_of (balances st) x - ind from x amount) /\
       StatsData.total_supply (stats st') = StatsData.total_supply (stats st) - amount /\
       allowances st' = allowances st /\
       ledger st' = push (ledger st) (TxRecord_burn now (next_id (ledger st)) caller from amount)).
Proof.
  intros Hinv Hwf Ha. split.
  - intros Ha0 Hlt. unfold burn, tokens_sub. unfold balance_of in Hlt.
    destruct (balances st !! from) as [v|]; simpl in Hlt.
    + rewrite (proj2 (Z.leb_gt _ _) Hlt). reflexivity.
    + rewrite (proj2 (Z.eqb_neq _ _) Ha0). reflexivity.
  - intros Hamt. rewrite (burn_ok now st caller from amount Hinv Hwf Ha Hamt).
    eexists. split; [reflexivity|]. cbn [balances stats allowances ledger].
    split; [|split; [reflexivity|split; reflexivity]].
    intros x. unfold balance_of, ind. unfold balance_of in Hamt.
    destruct (balances st !! from) as [v|] eqn:Hv; simpl in Hamt |- *.
    + destruct (v - amount =? 0) eqn:Hz; [apply Z.eqb_eq in Hz|];
        (destruct (decide (from = x)) as [->|Hne];
         [rewrite ?lookup_delete_eq, ?lookup_insert_eq, Hv; simpl; lia
         |rewrite ?lookup_delete_ne, ?lookup_insert_ne by exact Hne; lia]).
    + destruct Hamt as [->|Hle]; [|assert (amount = 0) as -> by lia]; case_decide; lia.
Qed.


Lemma approve_sets_allowance_witness :
  exists st', approve 0 st_approved "alice" "bob" 100 0 = Some (st', Ok 2) /\
    allowance st' "alice" "bob" = 110 /\ allowance st' "bob" "alice" = 0.
Proof.
  destruct (approve 0 st_approved "alice" "bob" 100 0) as [[st' [id|e]]|] eqn:E;
    [|vm_compute in E; discriminate|vm_compute in E; discriminate].
  assert (Hid : id = 2) by (vm_compute in E; congruence). subst id.
  exists st'. split; [reflexivity|].
  pose proof (approve_sets_allowance 0 st_approved "alice" "bob" 100 0 st' (Ok 2) E) as H.
  cbn beta iota in H. rewrite !H.
  split; [vm_compute; reflexivity|].
  rewrite decide_False by (intros [Hc _]; discriminate Hc). vm_compute. reflexivity.
Defined.

Lemma error_leaves_state_witness :
  exists st' e, transfer 0 (init 0 md_fee_john) "bob" "alice" 100 None 0 = Some (st', Err e) /\
    st' = init 0 md_fee_john.
Proof.
  destruct (transfer 0 (init 0 md_fee_john) "bob" "alice" 100 None 0) as [[st' [id|e]]|] eqn:E;
    [vm_compute in E; discriminate| |vm_compute in E; discriminate].
  exists st', e. split; [reflexivity|].
  destruct (error_leaves_state 0 (init 0 md_fee_john)) as [H _].
  exact (H "bob" "alice" 100 None 0 st' e E).
Defined.

Lemma approve_outcomes_witness :
  exists b1,
    approve 0 (init 0 md_fee_john) "alice" "bob" MAX128 0
      = Some (mkCanisterState b1 (stats (init 0 md_fee_john)) (allowances (init 0 md_fee_john))
                (ledger (init 0 md_fee_john)), Err AmountOverflow) /\
    balance_of b1 "alice" = 990 /\ balance_of b1 "john" = 10.
Proof.
  destruct (approve_outcomes 0 (init 0 md_fee_john) "alice" "bob" MAX128 0
              ltac:(wf_eval) ltac:(tokens_bound) ltac:(unfold INT_CONVERSION_K; lia))
    as [_ H].
  destruct H as (b1 & _ & Hbal & Hov & _); [vm_compute; discriminate|].
  exists b1. split; [apply Hov; vm_compute; reflexivity|].
  rewrite !Hbal. vm_compute. split; reflexivity.
Defined.

Lemma mint_outcomes_witness :
  exists st', mint 0 (init 0 md_alice) "alice" "bob" 50 = Some (st', Ok 1) /\
    balance_of (balances st') "bob" = 50 /\ StatsData.total_supply (stats st') = 1050.
Proof.
  destruct (mint_outcomes 0 (init 0 md_alice) "alice" "bob" 50
              ltac:(vm_compute; reflexivity) ltac:(wf_eval) ltac:(lia)) as [_ H].
  destruct H as (st' & Hm & Hbal & Hts & _); [vm_compute; discriminate|].
  exists st'. split; [exact Hm|]. rewrite Hbal, Hts. vm_compute. split; reflexivity.
Defined.

Lemma burn_outcomes_witness :
  burn 0 (init 0 md_alice) "alice" "alice" 2000
    = Some (init 0 md_alice, Err InsufficientBalance) /\
  exists st', burn 0 (init 0 md_alice) "alice" "bob" 0 = Some (st', Ok 1) /\
    balances st' = balances (init 0 md_alice).
Proof.
  destruct (burn_outcomes 0 (init 0 md_alice) "alice" "alice" 2000
              ltac:(vm_compute; reflexivity) ltac:(wf_eval) ltac:(lia)) as [H1 _].
  destruct (burn_outcomes 0 (init 0 md_alice) "alice" "bob" 0
              ltac:(vm_compute; reflexivity) ltac:(wf_eval) ltac:(lia)) as [_ H2].
  split; [apply H1; [lia|vm_compute; reflexivity]|].
  destruct H2 as (st' & Hb & _); [left; reflexivity|].
  exists st'. split; [exact Hb|]. vm_compute in Hb. injection Hb as <-. reflexivity.
Defined.


Lemma filter_rev {A} (P : A -> Prop) `{!forall x, Decision (P x)} (l : list A) :
  filter P (rev l) = rev (filter P l).
Proof.
  induction l as [|x l IH]; [reflexivity|]. simpl.
  rewrite filter_app, IH, !filter_cons.
  case_decide; simpl; [reflexivity|]. rewrite app_nil_r. reflexivity.
Qed.

Lemma filter_all_true {A} (l : list A) : filter (fun _ => true = true) l = l.
Proof.
  induction l as [|x l IH]; [reflexivity|]. rewrite filter_cons_True by reflexivity.
  by rewrite IH.
Qed.

Lemma user_history_filtered l who :
  filtered_history l (Some who) None
    = rev (filter (fun tx => who_filter (Some who) tx = true) (history l)) /\
  get_len_user_history l who = length (filtered_history l (Some who) None).
Proof.
  unfold filtered_history, get_len_user_history. simpl id_filter.
  rewrite filter_all_true, filter_rev. split; [reflexivity|].
  rewrite length_rev. f_equal. apply list_filter_iff. intros tx. simpl.
  rewrite !orb_true_iff, !bool_decide_eq_true. split; intros [[H|H]|H]; auto.
Qed.

(** X18: [get_user_transaction_count(who)] counts exactly the records that
    [get_transactions(Some who, _, None)] can list, and when it is at
    most [min(count, 1000)] that query returns all of them, newest
    first, with [next = None]. *)
Theorem get_user_transaction_count_spec l who count :
  get_len_user_history l who = length (filtered_history l (Some who) None) /\
  ((get_len_user_history l who <= Nat.min count MAX_TRANSACTION_QUERY_LEN)%nat ->
   get_transactions l (Some who) count None
     = Some (mkPaginatedResult
               (rev (filter (fun tx => who_filter (Some who) tx = true) (history l))) None)).
Proof.
  destruct (user_history_filtered l who) as [HF Hlen]. split; [exact Hlen|].
  intros Hle. unfold get_transactions. rewrite ledger_get_transactions_spec.
  rewrite Hlen in Hle. rewrite take_ge by exact Hle.
  rewrite (lookup_ge_None_2 _ _ Hle). simpl. rewrite HF. reflexivity.
Qed.

Lemma get_user_transaction_count_spec_witness :
  get_len_user_history (ledger st_approved) "bob" = 1%nat /\
  get_transactions (ledger st_approved) (Some "bob") 10 None
    = Some (mkPaginatedResult
              (rev (filter (fun tx => who_filter (Some "bob") tx = true)
                      (history (ledger st_approved)))) None).
Proof.
  destruct (get_user_transaction_count_spec (ledger st_approved) "bob" 10) as [_ H].
  split; [vm_compute; reflexivity|].
  apply H. vm_compute. lia.
Defined.

Lemma batch_records_cons now n from to amount ts fee :
  batch_records now n from ((to, amount) :: ts) fee
    = TxRecord_transfer now n from to amount fee :: batch_records now (n + 1) from ts fee.
Proof.
  unfold batch_records. simpl length. rewrite seqZ_cons by lia.
  replace (Z.pred (Z.of_nat (S (length ts)))) with (Z.of_nat (length ts)) by lia.
  replace (Z.succ n) with (n + 1) by lia. reflexivity.
Qed.

Lemma ledger_batch_transfer_cons now l from to amount ts fee :
  ledger_batch_transfer now l from ((to, amount) :: ts) fee
    = (next_id l :: (ledger_batch_transfer now
                       (push l (TxRecord_transfer now (next_id l) from to amount fee)) from ts fee).1,
       (ledger_batch_transfer now
          (push l (TxRecord_transfer now (next_id l) from to amount fee)) from ts fee).2).
Proof.
  simpl. unfold ledger_transfer.
  destruct (ledger_batch_transfer _ _ _ _ _); reflexivity.
Qed.

(** X19: [Ledger::batch_transfer] returns consecutive ids starting at the
    ledger's next id, one per transfer, in the given order, and advances
    the next id by the number of transfers; when no truncation happens
    (the history stays within [1_010_000] records) it appends exactly one
    [Transfer] record per pair, in order, each with the shared fee. *)
Theorem ledger_batch_transfer_spec now l from transfers fee :
  (ledger_batch_transfer now l from transfers fee).1
    = seqZ (next_id l) (Z.of_nat (length transfers)) /\
  next_id (ledger_batch_transfer now l from transfers fee).2
    = next_id l + Z.of_nat (length transfers) /\
  (Z.of_nat (length (history l) + length transfers)
     <= MAX_HISTORY_LENGTH + HISTORY_REMOVAL_BATCH_SIZE ->
   history (ledger_batch_transfer now l from transfers fee).2
     = history l ++ batch_records now (next_id l) from transfers fee /\
   vec_offset (ledger_batch_transfer now l from transfers fee).2 = vec_offset l).
Proof.
  revert l. induction transfers as [|[to amount] ts IH]; intros l.
  - simpl. split; [reflexivity|]. split; [lia|]. intros _.
    unfold batch_records. simpl. rewrite app_nil_r. split; reflexivity.
  - rewrite ledger_batch_transfer_cons. cbn [fst snd].
    set (r := TxRecord_transfer now (next_id l) from to amount fee).
    destruct (IH (push l r)) as (Hids & Hnext & Hhist).
    pose proof (push_next_id l r) as [Hn _].
    split; [|split].
    + rewrite Hids, Hn. simpl length. rewrite (seqZ_cons (next_id l)) by lia.
      f_equal. f_equal; lia.
    + rewrite Hnext, Hn. simpl length. lia.
    + intros Hlen. simpl length in Hlen.
      destruct (push_cases l r) as [[Hl' _]|[_ Hp]];
        [rewrite length_app in Hl'; simpl in Hl'; lia|].
      destruct Hhist as [Hh Ho].
      { rewrite Hp. cbn [history]. rewrite length_app. simpl. lia. }
      rewrite Hh, Ho, Hn, Hp. cbn [history vec_offset].
      rewrite batch_records_cons. fold r. rewrite <- app_assoc. split; reflexivity.
Qed.

Lemma ledger_batch_transfer_spec_witness :
  (ledger_batch_transfer 0 (ledger_pushes 2) "alice" [("bob", 5); ("carol", 7)] 1).1 = [2; 3] /\
  history (ledger_batch_transfer 0 (ledger_pushes 2) "alice" [("bob", 5); ("carol", 7)] 1).2
    = history (ledger_pushes 2) ++
      [TxRecord_transfer 0 2 "alice" "bob" 5 1; TxRecord_transfer 0 3 "alice" "carol" 7 1].
Proof.
  destruct (ledger_batch_transfer_spec 0 (ledger_pushes 2) "alice" [("bob", 5); ("carol", 7)] 1)
    as (Hids & _ & Hh).
  split; [rewrite Hids; vm_compute; reflexivity|].
  assert (Hl : length (history (ledger_pushes 2)) = 2%nat) by (vm_compute; reflexivity).
  destruct Hh as [Hh _]; [rewrite Hl; unfold MAX_HISTORY_LENGTH, HISTORY_REMOVAL_BATCH_SIZE; simpl; lia|].
  rewrite Hh. vm_compute. reflexivity.
Defined.

Lemma disburse_loop_next_id now T C bs b l t b' l' t' :
  disburse_loop now T C bs b l t = Some (b', l', t') ->
  next_id l' = next_id l + Z.of_nat (length bs).
Proof.
  revert b l t. induction bs as [|[p c] bs IH]; intros b l t H; simpl in H.
  - simplify_eq. simpl. lia.
  - repeat case_match; simplify_eq.
    rewrite (IH _ _ _ H). unfold record_auction.
    rewrite (proj1 (push_next_id _ _)). simpl length. lia.
Qed.

(** X20: a settlement reports as [first_transaction_id] the ledger length
    before it and as [last_transaction_id] the ledger length after it
    minus one, in [u64] arithmetic: one record per bid, so with no bids
    [last_transaction_id] is [first_transaction_id - 1] (wrapping to
    [2^64 - 1] on an empty ledger); the other fields are the auction
    number, the time, the distributed total, the collected cycles and
    the fee ratio; the stats and allowances are unchanged. *)
Theorem disburse_rewards_ids now st bidding n st' info :
  disburse_rewards now st bidding n = Some (st', info) ->
  first_transaction_id info = len (ledger st) /\
  len (ledger st') = len (ledger st) + Z.of_nat (size (bids bidding)) /\
  last_transaction_id info = (len (ledger st) + Z.of_nat (size (bids bidding)) - 1) mod 2 ^ 64 /\
  auction_id info = n /\ auction_time info = now /\
  cycles_collected info = cycles_since_auction bidding /\
  info_fee_ratio info = fee_ratio bidding /\
  stats st' = stats st /\ allowances st' = allowances st.
Proof.
  unfold disburse_rewards.
  destruct (disburse_loop _ _ _ _ _ _ _) as [[[b l] t]|] eqn:Hl; simpl; [|discriminate].
  intros H. injection H as <- <-. cbn.
  pose proof (disburse_loop_next_id _ _ _ _ _ _ _ _ _ _ Hl) as Hn.
  rewrite length_map_to_list in Hn. unfold len. unfold next_id in Hn.
  repeat split; try reflexivity; try lia. f_equal. lia.
Qed.

Lemma disburse_rewards_ids_witness :
  exists st' info, disburse_rewards 0 st_after_fee bidding_example 0 = Some (st', info) /\
    first_transaction_id info = 2 /\ last_transaction_id info = 3 /\
    history_size st' = 4.
Proof.
  destruct (disburse_rewards 0 st_after_fee bidding_example 0) as [[st' info]|] eqn:E;
    [|vm_compute in E; discriminate].
  exists st', info. split; [reflexivity|].
  destruct (disburse_rewards_ids 0 st_after_fee bidding_example 0 st' info E)
    as (H1 & H2 & H3 & _).
  assert (E1 : len (ledger st_after_fee) = 2) by (vm_compute; reflexivity).
  assert (E2 : Z.of_nat (size (bids bidding_example)) = 2) by (vm_compute; reflexivity).
  rewrite E1, E2 in *. unfold history_size. rewrite H1, H2, H3. vm_compute.
  split; [reflexivity|split; reflexivity].
Defined.

(** X21: [transfer_from(from, to, 0)] under a zero fee passes every check
    and then traps on the [expect] of the allowance lookup when [from]
    has no allowance entry for the caller. *)
Theorem transfer_from_zero_traps now st caller from to k :
  balances_wf (balances st) -> StatsData.fee (stats st) = 0 ->
  match allowances st !! from with Some inner => inner !! caller = None | None => True end ->
  transfer_from now st caller from to 0 k = None.
Proof.
  intros [Hpos _] Hf Hal. pose proof (balance_of_nonneg _ from Hpos) as Hnn.
  unfold transfer_from. simpl. rewrite Hf. unfold tokens_add. simpl.
  assert (Ha : allowance st from caller = 0).
  { unfold allowance. destruct (allowances st !! from) as [inner|]; [|reflexivity].
    rewrite Hal. reflexivity. }
  change (0 + 0) with 0. rewrite Ha. simpl. rewrite (proj2 (Z.ltb_ge _ _) Hnn).
  simpl.
  destruct (allowances st !! from) as [inner|]; [|reflexivity].
  rewrite Hal. reflexivity.
Qed.

Lemma transfer_from_zero_traps_witness :
  transfer_from 0 (init 0 md_alice) "bob" "alice" "carol" 0 0 = None.
Proof.
  apply transfer_from_zero_traps; [wf_eval|reflexivity|vm_compute; exact I].
Defined.

Lemma transfer_from_other_allowances now st caller from to amount k st' id :
  transfer_from now st caller from to amount k = Some (st', Ok id) ->
  stats st' = stats st /\
  forall o s, ~ (o = from /\ s = caller) -> allowance st' o s = allowance st o s.
Proof.
  unfold transfer_from, ledger_transfer_from. simpl. intros H.
  repeat case_match; simplify_eq; cbn [stats allowances]; split; try reflexivity;
    intros o s Hos; unfold allowance; cbn [allowances].
  all: destruct (decide (o = from)) as [->|Hne];
    [|rewrite ?lookup_delete_ne, ?lookup_insert_ne by congruence; reflexivity].
  all: rewrite ?lookup_delete_eq, ?lookup_insert_eq;
    rename select (allowances st !! from = Some _) into Hf; rewrite Hf.
  all: assert (Hs : s <> caller) by tauto.
  - rewrite <- (lookup_delete_ne _ caller s) by congruence.
    rename select (delete caller _ = _) into Hemp. rewrite Hemp, lookup_empty. reflexivity.
  - rewrite lookup_delete_ne by congruence. reflexivity.
  - rewrite lookup_insert_ne by congruence. reflexivity.
Qed.

(** X22: when [amount] and the fee are [Tokens128] values, [amount + fee]
    is nonzero and [owner]'s balance covers [amount + 2 * fee] (the fee
    of [approve], then [amount] and the fee of [transfer_from]): after
    [owner] approves [spender] for [amount] (the fee paid and
    [amount + fee] recorded), [spender] can [transfer_from] the full
    [amount] to [to], which uses the allowance up exactly: it drops back
    to zero, and every other allowance is as before the approval. With
    [amount + fee = 0] the approval stores no entry and the
    [transfer_from] traps instead. *)
Theorem approve_then_transfer_from now st owner spender to amount k :
  balances_wf (balances st) -> is_tokens amount -> is_tokens (StatsData.fee (stats st)) ->
  0 <= k <= INT_CONVERSION_K ->
  0 < amount + StatsData.fee (stats st) ->
  amount + 2 * StatsData.fee (stats st) <= balance_of (balances st) owner ->
  exists st1 st2,
    approve now st owner spender amount k = Some (st1, Ok (next_id (ledger st))) /\
    transfer_from now st1 spender owner to amount k = Some (st2, Ok (next_id (ledger st) + 1)) /\
    allowance st2 owner spender = 0 /\
    (forall o s, ~ (o = owner /\ s = spender) -> allowance st2 o s = allowance st o s).
Proof.
  intros Hwf Ha Hf Hk Hpos Hle.
  set (fee := StatsData.fee (stats st)) in *.
  pose proof Hwf as [Hp _].
  pose proof (balance_le_sum _ owner Hp) as Hmax.
  pose proof (auction_part_bounds fee k) as Hap.
  unfold is_tokens in Ha, Hf.
  destruct (approve_charges_fee now st owner spender amount k Hwf Hf Hk)
    as (b1 & Hwf1 & Hbal1 & _ & Hok); [fold fee; lia|].
  destruct Hok as (st1 & Happ & Hb & Hs); [fold fee; destruct Hwf; lia|].
  pose proof (approve_allowance_eq _ _ _ _ _ _ _ _ Happ) as Hal1. simpl in Hal1.
  pose proof (approve_ok_ledger _ _ _ _ _ _ _ _ Happ) as [_ Hl1].
  assert (Hn1 : next_id (ledger st1) = next_id (ledger st) + 1)
    by (rewrite Hl1; exact (proj1 (push_next_id _ _))).
  assert (Hal : allowance st1 owner spender = amount + fee)
    by (rewrite Hal1, decide_True by tauto; reflexivity).
  assert (Hb1 : amount + fee <= balance_of (balances st1) owner).
  { rewrite Hb, Hbal1. fold fee. unfold ind. specialize (Hap ltac:(lia) Hk). repeat case_decide; lia. }
  destruct (transfer_from_success now st1 spender owner to amount k) as [st2 Hst2].
  { rewrite Hb. exact Hwf1. }
  { unfold is_tokens. lia. }
  { rewrite Hs. unfold is_tokens. fold fee. lia. }
  { exact Hk. }
  { rewrite Hs. fold fee. lia. }
  { rewrite Hs. fold fee. destruct Hwf. lia. }
  { rewrite Hs, Hal. fold fee. lia. }
  { rewrite Hs. fold fee. exact Hb1. }
  rewrite Hn1 in Hst2.
  exists st1, st2. split; [exact Happ|]. split; [exact Hst2|].
  pose proof (transfer_from_ok_shape now st1 spender owner to amount k st2 _ Hst2)
    as (_ & _ & Hal2 & _).
  destruct (transfer_from_other_allowances _ _ _ _ _ _ _ _ _ Hst2) as [_ Hother].
  split.
  - rewrite Hal2, Hal, Hs. fold fee. lia.
  - intros o s Hos. rewrite Hother by tauto. rewrite Hal1, decide_False by exact Hos.
    reflexivity.
Qed.

Lemma approve_then_transfer_from_witness :
  exists st1 st2,
    approve 0 (init 0 md_fee_john) "alice" "bob" 100 0 = Some (st1, Ok 1) /\
    transfer_from 0 st1 "bob" "alice" "carol" 100 0 = Some (st2, Ok 2) /\
    allowance st2 "alice" "bob" = 0.
Proof.
  destruct (approve_then_transfer_from 0 (init 0 md_fee_john) "alice" "bob" "carol" 100 0
              ltac:(wf_eval) ltac:(tokens_bound) ltac:(tokens_bound)
              ltac:(unfold INT_CONVERSION_K; lia) ltac:(vm_compute; reflexivity)
              ltac:(vm_compute; discriminate))
    as (st1 & st2 & H1 & H2 & H3 & _).
  exists st1, st2. split; [exact H1|]. split; [exact H2|exact H3].
Defined.

(** X23: [get_metadata] right after [init md] gives back [md], with an
    absent [isTestToken] read as [Some false]; [transfer],
    [transfer_from], [approve] and the auction settlement, whatever their
    result, never change it; [mint] and [burn] change only its
    [totalSupply]. *)
Theorem get_metadata_spec now md st :
  get_metadata (init now md) =
    Metadata.mk (Metadata.logo md) (Metadata.name md) (Metadata.symbol md)
      (Metadata.decimals md) (Metadata.totalSupply md) (Metadata.owner md)
      (Metadata.fee md) (Metadata.feeTo md) (Some (default false (Metadata.isTestToken md))) /\
  (forall t, Metadata.isTestToken md = Some t -> get_metadata (init now md) = md) /\
  (forall caller to amount fl k st' r,
     transfer now st caller to amount fl k = Some (st', r) -> get_metadata st' = get_metadata st) /\
  (forall caller from to amount k st' r,
     transfer_from now st caller from to amount k = Some (st', r) ->
     get_metadata st' = get_metadata st) /\
  (forall caller spender amount k st' r,
     approve now st caller spender amount k = Some (st', r) -> get_metadata st' = get_metadata st) /\
  (forall bidding n st' info,
     disburse_rewards now st bidding n = Some (st', info) -> get_metadata st' = get_metadata st) /\
  (forall caller to amount st' r,
     mint now st caller to amount = Some (st', r) ->
     stats st' = StatsData.set_total_supply (stats st) (StatsData.total_supply (stats st'))) /\
  (forall caller from amount st' r,
     burn now st caller from amount = Some (st', r) ->
     stats st' = StatsData.set_total_supply (stats st) (StatsData.total_supply (stats st'))).
Proof.
  split; [reflexivity|]. split.
  { intros t Ht. destruct md. simpl in Ht. subst. reflexivity. }
  assert (Hid : stats st = StatsData.set_total_supply (stats st) (StatsData.total_supply (stats st)))
    by (destruct (stats st); reflexivity).
  split; [|split; [|split; [|split; [|split]]]].
  - unfold transfer. simpl. intros. repeat case_match; simplify_eq; reflexivity.
  - unfold transfer_from. simpl. intros. repeat case_match; simplify_eq; reflexivity.
  - unfold approve. simpl. intros. repeat case_match; simplify_eq; reflexivity.
  - unfold disburse_rewards. intros bidding n st' info H.
    destruct (disburse_loop _ _ _ _ _ _ _) as [[[b l] t]|]; simpl in H; [|discriminate].
    injection H as <- _. reflexivity.
  - unfold mint. intros. repeat case_match; simplify_eq; simpl; try exact Hid.
    destruct (stats st); reflexivity.
  - unfold burn. intros. repeat case_match; simplify_eq; simpl; try exact Hid;
      destruct (stats st); reflexivity.
Qed.

Lemma get_metadata_spec_witness :
  get_metadata (init 0 md_alice) =
    Metadata.mk "logo" "Token" "TKN" 8 1000 "alice" 0 "alice" (Some false) /\
  exists st', transfer 0 (init 0 md_alice) "alice" "bob" 10 None 0 = Some (st', Ok 1) /\
    get_metadata st' = get_metadata (init 0 md_alice).
Proof.
  destruct (get_metadata_spec 0 md_alice (init 0 md_alice)) as (H0 & _ & Ht & _).
  split; [exact H0|].
  destruct (transfer 0 (init 0 md_alice) "alice" "bob" 10 None 0) as [[st' r]|] eqn:E;
    [|vm_compute in E; discriminate].
  assert (Hr : r = Ok 1) by (vm_compute in E; congruence). subst r.
  exists st'. split; [reflexivity|]. exact (Ht "alice" "bob" 10 None 0 st' (Ok 1) E).
Defined.
